(** * foiafeed: the feed-to-post pipeline of [foiafeed.py]

    A shallow embedding of [foiafeed.py].  Python [str] values are
    modelled as [string] (the UTF-8 bytes of the text): splitting on
    ["\n"], ["?"] or ["#"] and substring search agree on bytes and on
    code points because UTF-8 is self-synchronising.  Everything the
    script reaches outside of itself (the feed reader, HTTP, readability,
    PIL, the Twitter client, the clock, the configuration files) is a
    field of the record [World]; a Python exception is the result
    [Raised].  The sqlite connection is explicit state, and every external
    call and every method call on an [Article] is logged as an [Event]. *)

From Stdlib Require Import List String Ascii Bool Arith ZArith Lia.
From Stdlib Require Import Permutation Sorted.
Import ListNotations.

Local Open Scope string_scope.
Local Open Scope list_scope.

(** ** Python string operations *)

Module PyStr.

(** [sep] is a single character in every call of the script. *)
Fixpoint split (sep : ascii) (s : string) : list string :=
  match s with
  | EmptyString => [EmptyString]
  | String c s' =>
      if Ascii.eqb c sep then EmptyString :: split sep s'
      else match split sep s' with
           | [] => [String c EmptyString]
           | piece :: pieces => String c piece :: pieces
           end
  end.

(** [s.split(sep)[0]] *)
Definition split_first (sep : ascii) (s : string) : string :=
  hd EmptyString (split sep s).

(** [sep.join(pieces)] for a one-character [sep] *)
Definition join (sep : ascii) (pieces : list string) : string :=
  String.concat (String sep EmptyString) pieces.

Fixpoint startswith (p s : string) : bool :=
  match p, s with
  | EmptyString, _ => true
  | String _ _, EmptyString => false
  | String a p', String b s' => Ascii.eqb a b && startswith p' s'
  end.

(** [p in s] *)
Fixpoint contains (p s : string) : bool :=
  startswith p s ||
  match s with
  | EmptyString => false
  | String _ s' => contains p s'
  end.

Definition is_upper (c : ascii) : bool :=
  (65 <=? nat_of_ascii c)%nat && (nat_of_ascii c <=? 90)%nat.

Definition lower_char (c : ascii) : ascii :=
  if is_upper c then ascii_of_nat (nat_of_ascii c + 32) else c.

(** [s.lower()], on the ASCII letters; the bytes of a non-ASCII
    character are left as they are.  For the search of the lexicon this
    is Python's answer: every phrase of [FOIA_PHRASES] is ASCII, and the
    only non-ASCII characters whose lowercase form holds an ASCII letter
    are U+212A, which gives [k], a letter no phrase has, and U+0130,
    which gives [i] followed by U+0307, while no phrase ends in [i]. *)
Fixpoint lower (s : string) : string :=
  match s with
  | EmptyString => EmptyString
  | String c s' => String (lower_char c) (lower s')
  end.

Fixpoint has_char (c : ascii) (s : string) : bool :=
  match s with
  | EmptyString => false
  | String a s' => Ascii.eqb a c || has_char c s'
  end.

(** What ``occurs in'' means, stated without the search procedure. *)
Definition Substring (p s : string) : Prop :=
  exists pre post, s = (pre ++ p ++ post)%string.

End PyStr.

Definition newline : ascii := ascii_of_nat 10.

(** ** Module-level data *)

(** Comparison happens in lowercase, so no uppercase letters here. *)
Definition FOIA_PHRASES : list string :=
  [ "f.o.i.a.";
    "foia";
    "freedom of information act";
    "freedom of information law";
    "records request";
    "open records";
    "public records act";
    "public records law" ].

(** ** The pure parts of the script *)

(** [url.split('?')[0].split('#')[0]] *)
Definition decruft_url (url : string) : string :=
  PyStr.split_first "#" (PyStr.split_first "?" url).

(** [any(phrase.lower() in graf.lower() for phrase in FOIA_PHRASES)] *)
Definition graf_matches (graf : string) : bool :=
  existsb (fun phrase => PyStr.contains (PyStr.lower phrase) (PyStr.lower graf))
          FOIA_PHRASES.

(** The loop of [check_for_matches]: [matching_grafs] is the list the
    article already holds, each matching paragraph is appended to it. *)
Fixpoint scan_grafs (matching_grafs : list string) (plaintext_grafs : list string)
  : list string :=
  match plaintext_grafs with
  | [] => matching_grafs
  | graf :: rest =>
      if graf_matches graf
      then scan_grafs (matching_grafs ++ [graf]) rest
      else scan_grafs matching_grafs rest
  end.

(** Lines 61-65 of [check_for_matches], after [clean_article] returned
    [plaintext]. *)
Definition find_matches (matching_grafs : list string) (plaintext : string)
  : list string :=
  scan_grafs matching_grafs (PyStr.split newline plaintext).

(** The paragraph predicate in the words of the specification: some
    lexicon phrase occurs in the lowercased paragraph. *)
Definition MentionsLexicon (graf : string) : Prop :=
  exists phrase, In phrase FOIA_PHRASES /\ PyStr.Substring phrase (PyStr.lower graf).

(** Case-insensitive occurrence, stated without [lower]: the letters of
    the alphabet, each lowercase letter with its capital. *)
Definition case_pairs : list (ascii * ascii) :=
  [ ("a", "A"); ("b", "B"); ("c", "C"); ("d", "D"); ("e", "E"); ("f", "F");
    ("g", "G"); ("h", "H"); ("i", "I"); ("j", "J"); ("k", "K"); ("l", "L");
    ("m", "M"); ("n", "N"); ("o", "O"); ("p", "P"); ("q", "Q"); ("r", "R");
    ("s", "S"); ("t", "T"); ("u", "U"); ("v", "V"); ("w", "W"); ("x", "X");
    ("y", "Y"); ("z", "Z") ]%char.

(** The two characters are the same up to the case of a letter. *)
Definition same_letter (a b : ascii) : Prop :=
  a = b \/ In (a, b) case_pairs \/ In (b, a) case_pairs.

(** The two strings are the same up to the case of their letters. *)
Fixpoint caseless_eq (s t : string) : Prop :=
  match s, t with
  | EmptyString, EmptyString => True
  | String a s', String b t' => same_letter a b /\ caseless_eq s' t'
  | _, _ => False
  end.

(** The phrase occurs in the string, whatever the case of the letters
    on either side. *)
Definition OccursCaseless (phrase s : string) : Prop :=
  exists pre mid post, s = (pre ++ mid ++ post)%string /\ caseless_eq mid phrase.

(** The paragraph predicate in the words of the specification: the
    paragraph contains, case-insensitively, some phrase of the lexicon. *)
Definition MentionsCaseless (graf : string) : Prop :=
  exists phrase, In phrase FOIA_PHRASES /\ OccursCaseless phrase graf.

Definition same_letterb (a b : ascii) : bool :=
  Ascii.eqb a b ||
  existsb (fun p => (Ascii.eqb (fst p) a && Ascii.eqb (snd p) b) ||
                    (Ascii.eqb (fst p) b && Ascii.eqb (snd p) a)) case_pairs.

Definition all_ascii : list ascii := map ascii_of_nat (seq 0 256).

(** ** Exceptions, the outside world, the run-time state *)

Inductive exn : Type :=
| KeyError (key : string)
| AttributeError (name : string)
| ExternalError (what : string).

Inductive result (A : Type) : Type :=
| Returned (a : A)
| Raised (e : exn).

Arguments Returned {A} a.
Arguments Raised {A} e.

(** A Python dict with string keys and string values, as read from a
    feed entry or from [config.yaml]. *)
Definition pydict : Type := list (string * string).

Fixpoint getitem (d : pydict) (key : string) : result string :=
  match d with
  | [] => Raised (KeyError key)
  | (k, v) :: d' => if String.eqb k key then Returned v else getitem d' key
  end.

(** What the script reads of a [requests] response. *)
Record Response : Type := {
  headers_location : option string;
  resp_url : string;
  resp_text : string
}.

(** A PIL image object. *)
Record Image : Type := { image_handle : Z }.

Record Feed : Type := { feed_outlet : string; feed_url : string }.

Record World : Type := {
  CONFIG : pydict;
  rss_feeds : list Feed;
  (** [feedparser.parse(url)['entries']] *)
  feedparser_parse : string -> result (list pydict);
  (** [requests.head(url, allow_redirects=True)] *)
  requests_head : string -> result Response;
  (** [requests.get(url)] *)
  requests_get : string -> result Response;
  (** [HTML2Text().handle(Document(text).summary())] *)
  readable_plaintext : string -> result string;
  (** the body of [render_img]: [textwrap.wrap] and the PIL drawing *)
  pil_render : string -> Z -> result Image;
  (** [img.save(img_io, ...)] followed by [twitter.upload_media(media=img_io)];
      the value is the response's ['media_id'] *)
  twitter_upload_media : Image -> result Z;
  (** [twitter.update_status(status=..., media_ids=...)] *)
  twitter_update_status : string -> list Z -> result unit;
  (** the successive readings of [datetime.utcnow()] *)
  utcnow : nat -> Z
}.

Record Article : Type := {
  outlet : string;
  title : string;
  url : string;
  matching_grafs : list string;
  imgs : list Image;
  tweeted : bool
}.

Definition set_matching_grafs (self : Article) (grafs : list string) : Article :=
  {| outlet := outlet self; title := title self; url := url self;
     matching_grafs := grafs; imgs := imgs self; tweeted := tweeted self |}.

Definition append_img (self : Article) (img : Image) : Article :=
  {| outlet := outlet self; title := title self; url := url self;
     matching_grafs := matching_grafs self; imgs := imgs self ++ [img];
     tweeted := tweeted self |}.

Definition set_tweeted (self : Article) (b : bool) : Article :=
  {| outlet := outlet self; title := title self; url := url self;
     matching_grafs := matching_grafs self; imgs := imgs self; tweeted := b |}.

(** A row of the table [articles]. *)
Record Row : Type := {
  row_id : Z;
  row_title : string;
  row_outlet : string;
  row_url : string;
  row_tweeted : bool;
  row_recorded_at : Z
}.

(** The sqlite connection: the rows on disk and the rows of the open
    transaction, which the connection's own queries see as well. *)
Record Conn : Type := { committed : list Row; pending : list Row }.

Definition visible (c : Conn) : list Row := committed c ++ pending c.

Record St : Type := { conn : Conn; clock_reads : nat }.

Inductive Event : Type :=
| EvParseFeed (feed_url : string)
| EvHead (u : string)
| EvGet (u : string)
| EvPrintChecking (o : string) (counter total : nat)
| EvPrintGotOne
| EvCheckForMatches (a : Article)
| EvTweet (a : Article)
| EvRender (graf : string) (width : Z)
| EvUpload (img : Image)
| EvUpdateStatus (status : string) (media_ids : list Z)
| EvInsert (r : Row)
| EvCommit
| EvSleep (secs : Z).

(** ** A state, log and exception monad *)

Record Out (A : Type) : Type := { res : result A; st : St; evs : list Event }.

Arguments res {A} o.
Arguments st {A} o.
Arguments evs {A} o.

Definition M (A : Type) : Type := St -> Out A.

Definition ret {A} (a : A) : M A :=
  fun s => {| res := Returned a; st := s; evs := [] |}.

Definition raise {A} (e : exn) : M A :=
  fun s => {| res := Raised e; st := s; evs := [] |}.

Definition bind {A B} (m : M A) (k : A -> M B) : M B :=
  fun s =>
    let o := m s in
    match res o with
    | Returned a =>
        let o' := k a (st o) in
        {| res := res o'; st := st o'; evs := evs o ++ evs o' |}
    | Raised e => {| res := Raised e; st := st o; evs := evs o |}
    end.

(** [try: body / except: handler], the bare [except] that takes every
    exception. *)
Definition try_except {A} (body : M A) (handler : exn -> M A) : M A :=
  fun s =>
    let o := body s in
    match res o with
    | Returned _ => o
    | Raised e =>
        let o' := handler e (st o) in
        {| res := res o'; st := st o'; evs := evs o ++ evs o' |}
    end.

Definition log (ev : Event) : M unit :=
  fun s => {| res := Returned tt; st := s; evs := [ev] |}.

Definition outcome {A} (r : result A) : M A :=
  fun s => {| res := r; st := s; evs := [] |}.

Notation "x <- m ;; k" := (bind m (fun x => k))
  (at level 61, m at next level, right associativity).
Notation "m ;; k" := (bind m (fun _ => k))
  (at level 61, right associativity).

(** ** The table [articles] *)

Definition outlet_rows (o : string) (rows : list Row) : list Row :=
  filter (fun r => String.eqb (row_outlet r) o) rows.

Fixpoint insert_desc (r : Row) (sorted : list Row) : list Row :=
  match sorted with
  | [] => [r]
  | x :: rest =>
      if (row_id x <? row_id r)%Z then r :: x :: rest
      else x :: insert_desc r rest
  end.

(** [order by id desc] *)
Definition order_by_id_desc (rows : list Row) : list Row :=
  fold_right insert_desc [] rows.

(** [select url from articles where outlet=? order by id desc limit 1000] *)
Definition select_recent_urls (c : Conn) (o : string) : list string :=
  map row_url (firstn 1000 (order_by_id_desc (outlet_rows o (visible c)))).

Definition max_id (rows : list Row) : Z :=
  fold_right (fun r m => Z.max (row_id r) m) 0%Z rows.

(** Modelled from the spec: the [create table] statement is not part of
    the script; the specification gives the column [id] as
    auto-increment, so a new row takes the id after the largest one. *)
Definition next_id (c : Conn) : Z := (max_id (visible c) + 1)%Z.

(** [insert into articles(title, outlet, url, tweeted, recorded_at) values ...].
    The statement is taken to succeed: an error of sqlite itself (a
    locked or full database, a missing table) is outside this model, as
    it is for [commit] and for the select. *)
Definition execute_insert (t o u : string) (tw : bool) (at_ : Z) : M unit :=
  fun s =>
    let r := {| row_id := next_id (conn s); row_title := t; row_outlet := o;
                row_url := u; row_tweeted := tw; row_recorded_at := at_ |} in
    {| res := Returned tt;
       st := {| conn := {| committed := committed (conn s);
                           pending := pending (conn s) ++ [r] |};
                clock_reads := clock_reads s |};
       evs := [EvInsert r] |}.

(** [conn.commit()] *)
Definition commit : M unit :=
  fun s =>
    {| res := Returned tt;
       st := {| conn := {| committed := visible (conn s); pending := [] |};
                clock_reads := clock_reads s |};
       evs := [EvCommit] |}.

Definition execute_select_recent (o : string) : M (list string) :=
  fun s => {| res := Returned (select_recent_urls (conn s) o); st := s; evs := [] |}.

(** [datetime.utcnow()] *)
Definition datetime_utcnow (w : World) : M Z :=
  fun s =>
    {| res := Returned (utcnow w (clock_reads s));
       st := {| conn := conn s; clock_reads := S (clock_reads s) |};
       evs := [] |}.

(** ** The script *)

Definition str_in (x : string) (l : list string) : bool :=
  existsb (String.eqb x) l.

(** [Article.canonicalize_url], as a function of the two attributes it
    reads; the value is the new [self.url]. *)
Definition canonicalize_url (w : World) (o u : string) : M string :=
  u1 <- (if str_in o ["ProPublica"; "Reuters"] then
           log (EvHead u) ;;
           r <- outcome (requests_head w u) ;;
           ret (match headers_location r with
                | Some location => location
                | None => resp_url r
                end)
         else ret u) ;;
  ret (if negb (str_in o ["AP"]) then decruft_url u1 else u1).

(** [Article.__init__] *)
Definition Article_init (w : World) (o t u : string) : M Article :=
  u' <- canonicalize_url w o u ;;
  ret {| outlet := o; title := t; url := u';
         matching_grafs := []; imgs := []; tweeted := false |}.

Definition clean_article (w : World) (article : Article) : M string :=
  log (EvGet (url article)) ;;
  r <- outcome (requests_get w (url article)) ;;
  outcome (readable_plaintext w (resp_text r)).

Definition check_for_matches (w : World) (self : Article) : M Article :=
  log (EvCheckForMatches self) ;;
  plaintext <- clean_article w self ;;
  ret (set_matching_grafs self (find_matches (matching_grafs self) plaintext)).

Record Twython : Type := {
  app_key : string; app_secret : string;
  oauth_token : string; oauth_token_secret : string
}.

Definition get_twitter_instance (w : World) : M Twython :=
  k <- outcome (getitem (CONFIG w) "twitter_app_key") ;;
  s <- outcome (getitem (CONFIG w) "twitter_app_secret") ;;
  t <- outcome (getitem (CONFIG w) "twitter_oauth_token") ;;
  ts <- outcome (getitem (CONFIG w) "twitter_oauth_token_secret") ;;
  ret {| app_key := k; app_secret := s; oauth_token := t; oauth_token_secret := ts |}.

Definition render_img (w : World) (graf : string) (width : Z) : M Image :=
  log (EvRender graf width) ;;
  outcome (pil_render w graf width).

(** [60 if len(self.matching_grafs) == 1 else 35] *)
Definition wrap_width (self : Article) : Z :=
  if Nat.eqb (List.length (matching_grafs self)) 1 then 60%Z else 35%Z.

(** [for graf in self.matching_grafs[:4]: self.imgs.append(render_img(graf, width))];
    [grafs] is what is left of the slice. *)
Fixpoint render_loop (w : World) (width : Z) (grafs : list string) (self : Article)
  : M Article :=
  match grafs with
  | [] => ret self
  | graf :: rest =>
      img <- render_img w graf width ;;
      render_loop w width rest (append_img self img)
  end.

(** [self.media_ids]: [__init__] sets [outlet], [title], [url],
    [matching_grafs], [imgs] and [tweeted], and nothing in the script
    assigns an attribute [media_ids], so the lookup raises. *)
Definition getattr_media_ids (self : Article) : M (list Z) :=
  raise (AttributeError "media_ids").

(** The body of the [try] in [tweet]. *)
Definition upload_one (w : World) (self : Article) (img : Image) : M unit :=
  log (EvUpload img) ;;
  media_id <- outcome (twitter_upload_media w img) ;;
  attr <- getattr_media_ids self ;;
  ret tt.

(** [for img in self.imgs: try: ... except: pass]; [media_ids] is the
    local list of [tweet]. *)
Fixpoint upload_loop (w : World) (self : Article) (images : list Image)
  (media_ids : list Z) : M (list Z) :=
  match images with
  | [] => ret media_ids
  | img :: rest =>
      try_except (upload_one w self img) (fun _ => ret tt) ;;
      upload_loop w self rest media_ids
  end.

Definition status_text (self : Article) : string :=
  (outlet self ++ ": " ++ title self ++ " " ++ url self)%string.

Definition tweet (w : World) (self : Article) : M Article :=
  log (EvTweet self) ;;
  self1 <- render_loop w (wrap_width self) (firstn 4 (matching_grafs self)) self ;;
  twitter <- get_twitter_instance w ;;
  media_ids <- upload_loop w self1 (imgs self1) [] ;;
  log (EvUpdateStatus (status_text self1) media_ids) ;;
  outcome (twitter_update_status w (status_text self1) media_ids) ;;
  ret (set_tweeted self1 true).

(** The loop of [parse_feed]; [articles] is the list built so far. *)
Fixpoint parse_entries (w : World) (o : string) (entries : list pydict)
  (articles : list Article) : M (list Article) :=
  match entries with
  | [] => ret articles
  | entry :: rest =>
      t <- outcome (getitem entry "title") ;;
      u <- outcome (getitem entry "link") ;;
      article <- Article_init w o t u ;;
      parse_entries w o rest (articles ++ [article])
  end.

Definition parse_feed (w : World) (o u : string) : M (list Article) :=
  log (EvParseFeed u) ;;
  entries <- outcome (feedparser_parse w u) ;;
  parse_entries w o entries [].

(** The body of the inner loop of [main]. *)
Definition process_article (w : World) (counter total : nat) (article : Article)
  : M unit :=
  log (EvPrintChecking (outlet article) counter total) ;;
  article1 <- check_for_matches w article ;;
  article2 <- (match matching_grafs article1 with
               | [] => ret article1
               | _ :: _ => log EvPrintGotOne ;; tweet w article1
               end) ;;
  now <- datetime_utcnow w ;;
  execute_insert (title article2) (outlet article2) (url article2)
                 (tweeted article2) now ;;
  commit ;;
  log (EvSleep 1).

(** [for counter, article in enumerate(articles, 1)], from [counter] on;
    [total] is [len(articles)]. *)
Fixpoint process_articles (w : World) (counter total : nat) (articles : list Article)
  : M unit :=
  match articles with
  | [] => ret tt
  | article :: rest =>
      process_article w counter total article ;;
      process_articles w (S counter) total rest
  end.

(** [[a for a in articles if a.url not in recent_urls]] *)
Definition not_recent (recent_urls : list string) (articles : list Article)
  : list Article :=
  filter (fun a => negb (str_in (url a) recent_urls)) articles.

(** The body of the outer loop of [main]. *)
Definition process_feed (w : World) (feed : Feed) : M unit :=
  articles <- parse_feed w (feed_outlet feed) (feed_url feed) ;;
  recent_urls <- execute_select_recent (feed_outlet feed) ;;
  let articles := not_recent recent_urls articles in
  process_articles w 1 (List.length articles) articles.

Fixpoint process_feeds (w : World) (feeds : list Feed) : M unit :=
  match feeds with
  | [] => ret tt
  | feed :: rest => process_feed w feed ;; process_feeds w rest
  end.

(** [sqlite3.connect] gives the connection of the state; [conn.close()]
    after the loop has nothing left to do, every insert being committed
    in its own turn.  Opening the database and reading [rssfeeds.json]
    are taken to succeed and the feeds to have their two keys: a failure
    there ends the run before the feed it concerns is read. *)
Definition main (w : World) : M unit :=
  db <- outcome (getitem (CONFIG w) "db") ;;
  twitter <- get_twitter_instance w ;;
  process_feeds w (rss_feeds w).

(** ** Vocabulary of the properties *)

(** A computation that leaves the state alone: everything in the script
    but the clock reading, the insert and the commit. *)
Definition pure_state {A} (m : M A) : Prop := forall s, st (m s) = s.

(** The two objects are the same article: the methods only ever change
    [matching_grafs], [imgs] and [tweeted]. *)
Definition same_article (a b : Article) : Prop :=
  outlet a = outlet b /\ title a = title b /\ url a = url b.

Definition render_events (width : Z) (grafs : list string) : list Event :=
  map (fun graf => EvRender graf width) grafs.

(** The calls of [render_img], of [upload_media] and of [update_status]
    in a log, with their arguments. *)
Definition rendered (l : list Event) : list (string * Z) :=
  flat_map (fun ev => match ev with EvRender g width => [(g, width)] | _ => [] end) l.

Definition uploaded (l : list Event) : list Image :=
  flat_map (fun ev => match ev with EvUpload img => [img] | _ => [] end) l.

Definition posted (l : list Event) : list (string * list Z) :=
  flat_map (fun ev => match ev with EvUpdateStatus s m => [(s, m)] | _ => [] end) l.


(** [res.headers['location'] if 'location' in res.headers else res.url] *)
Definition redirect_target (r : Response) : string :=
  match headers_location r with
  | Some location => location
  | None => resp_url r
  end.

(** What [clean_article] yields for an article, read off the world. *)
Definition fetch_plaintext (w : World) (a : Article) : result string :=
  match requests_get w (url a) with
  | Returned r => readable_plaintext w (resp_text r)
  | Raised e => Raised e
  end.

(** The [if article.matching_grafs: ... article.tweet()] of [main]. *)
Definition tweet_if_matching (w : World) (a : Article) : M Article :=
  match matching_grafs a with
  | [] => ret a
  | _ :: _ => log EvPrintGotOne ;; tweet w a
  end.

(** The row [main] writes for an article, and the state after the
    insert and the commit. *)
Definition recorded_row (w : World) (s : St) (a : Article) : Row :=
  {| row_id := next_id (conn s); row_title := title a; row_outlet := outlet a;
     row_url := url a; row_tweeted := tweeted a;
     row_recorded_at := utcnow w (clock_reads s) |}.

Definition after_record (s : St) (r : Row) : St :=
  {| conn := {| committed := visible (conn s) ++ [r]; pending := [] |};
     clock_reads := S (clock_reads s) |}.

(** ** A small world to run the script in *)

Module Sample.

Definition config : pydict :=
  [ ("db", "foiafeed.db");
    ("twitter_app_key", "k"); ("twitter_app_secret", "ks");
    ("twitter_oauth_token", "t"); ("twitter_oauth_token_secret", "ts") ].

Definition entry (t u : string) : pydict := [("title", t); ("link", u)].

Definition entries : list pydict :=
  [ entry "City denies records request" "http://example.com/a?utm=rss";
    entry "Weather" "http://example.com/b";
    entry "Council sued under public records law" "http://example.com/c#top" ].

Definition page (u : string) : Response :=
  {| headers_location := None; resp_url := u; resp_text := u |}.

(** The readable text of the three pages, keyed by the page itself. *)
Definition plaintext_of (html : string) : result string :=
  if String.eqb html "http://example.com/a"
  then Returned (PyStr.join newline
                   ["Para one."; "This mentions FOIA here."; "Para three."])
  else if String.eqb html "http://example.com/c"
  then Returned (PyStr.join newline
                   ["The suit cites the Public Records Law."; "";
                    "An open records request went unanswered."])
  else Returned "Sunny.".

Definition world_with (feed : result (list pydict))
  (get : string -> result Response)
  (post : string -> list Z -> result unit) : World :=
  {| CONFIG := config;
     rss_feeds := [ {| feed_outlet := "Example"; feed_url := "http://example.com/rss" |} ];
     feedparser_parse := fun _ => feed;
     requests_head := fun u => Returned (page u);
     requests_get := get;
     readable_plaintext := plaintext_of;
     pil_render := fun _ width => Returned {| image_handle := width |};
     twitter_upload_media := fun img => Returned (image_handle img + 1000)%Z;
     twitter_update_status := post;
     utcnow := fun n => (1700000000 + Z.of_nat n)%Z |}.

(** Everything answers. *)
Definition world : World :=
  world_with (Returned entries) (fun u => Returned (page u)) (fun _ _ => Returned tt).

(** The status post is refused. *)
Definition world_post_fails : World :=
  world_with (Returned entries) (fun u => Returned (page u))
             (fun _ _ => Raised (ExternalError "TwythonError")).

(** The page of the first article cannot be fetched. *)
Definition world_get_fails : World :=
  world_with (Returned entries)
             (fun u => if String.eqb u "http://example.com/a"
                       then Raised (ExternalError "ConnectionError")
                       else Returned (page u))
             (fun _ _ => Returned tt).

(** The second entry of the feed has no title. *)
Definition world_entry_without_title : World :=
  world_with (Returned [ entry "City denies records request" "http://example.com/a";
                         [("link", "http://example.com/b")];
                         entry "Weather" "http://example.com/c" ])
             (fun u => Returned (page u)) (fun _ _ => Returned tt).

(** A server whose feed links resolve to a story address with a query
    string, and which sends the story address without its query string
    to the front page. *)
Definition world_redirects : World :=
  {| CONFIG := config; rss_feeds := [];
     feedparser_parse := fun _ => Returned [];
     requests_head := fun u =>
       if String.eqb u "http://feeds.example.com/r/7"
       then Returned {| headers_location := None;
                        resp_url := "http://example.com/story?id=7"; resp_text := "" |}
       else if String.eqb u "http://example.com/story"
       then Returned {| headers_location := None;
                        resp_url := "http://example.com/"; resp_text := "" |}
       else Returned (page u);
     requests_get := fun u => Returned (page u);
     readable_plaintext := plaintext_of;
     pil_render := fun _ width => Returned {| image_handle := width |};
     twitter_upload_media := fun img => Returned (image_handle img + 1000)%Z;
     twitter_update_status := fun _ _ => Returned tt;
     utcnow := fun n => Z.of_nat n |}.

(** A Reuters feed whose first link cannot be resolved and whose second
    entry has no title. *)
Definition world_lookup_fails : World :=
  {| CONFIG := config;
     rss_feeds := [ {| feed_outlet := "Reuters"; feed_url := "http://example.com/rss" |} ];
     feedparser_parse := fun _ =>
       Returned [ entry "City denies records request" "http://example.com/a";
                  [("link", "http://example.com/b")] ];
     requests_head := fun _ => Raised (ExternalError "ConnectionError");
     requests_get := fun u => Returned (page u);
     readable_plaintext := plaintext_of;
     pil_render := fun _ width => Returned {| image_handle := width |};
     twitter_upload_media := fun img => Returned (image_handle img + 1000)%Z;
     twitter_update_status := fun _ _ => Returned tt;
     utcnow := fun n => Z.of_nat n |}.

Definition feed : Feed := {| feed_outlet := "Example"; feed_url := "http://example.com/rss" |}.

Definition seen_row : Row :=
  {| row_id := 1; row_title := "Weather"; row_outlet := "Example";
     row_url := "http://example.com/b"; row_tweeted := false;
     row_recorded_at := 1600000000 |}.

(** A fresh connection to a store that holds one row. *)
Definition start : St :=
  {| conn := {| committed := [seen_row]; pending := [] |}; clock_reads := 0 |}.

Definition article (t u : string) : Article :=
  {| outlet := "Example"; title := t; url := u;
     matching_grafs := []; imgs := []; tweeted := false |}.

End Sample.

(** ** Predicates on the log *)

(** What one turn of the inner loop may log for the article [a]. *)
Definition event_of (a : Article) (ev : Event) : Prop :=
  match ev with
  | EvPrintChecking _ _ _ | EvPrintGotOne | EvRender _ _ | EvUpload _
  | EvCommit | EvSleep _ => True
  | EvCheckForMatches a' | EvTweet a' => same_article a a'
  | EvGet u => u = url a
  | EvUpdateStatus status media_ids => status = status_text a /\ media_ids = []
  | EvInsert r =>
      row_title r = title a /\ row_outlet r = outlet a /\ row_url r = url a
  | EvParseFeed _ | EvHead _ => False
  end.

(** What reading a feed may log. *)
Definition feed_event (ev : Event) : Prop :=
  match ev with
  | EvParseFeed _ | EvHead _ => True
  | _ => False
  end.

(** The event does not hand an article with the URL [u] to the text
    extraction, to the matcher or to the publish step. *)
Definition untouched (u : string) (ev : Event) : Prop :=
  match ev with
  | EvCheckForMatches a | EvTweet a => url a <> u
  | EvGet u' => u' <> u
  | _ => True
  end.

(** Every status posted in the log is the status line of an article on
    which the log shows a call of [tweet], and carries no media id. *)
Definition well_posted (l : list Event) : Prop :=
  forall status media_ids,
    In (EvUpdateStatus status media_ids) l ->
    media_ids = [] /\
    exists a, In (EvTweet a) l /\
              status = (outlet a ++ ": " ++ title a ++ " " ++ url a)%string.

(** Newer rows first. *)
Definition newer_first (x y : Row) : Prop := (row_id y <= row_id x)%Z.

(** The row [r] is the record of the article [a]: it carries the
    article's title, outlet and URL, and its flag says whether [tweet]
    ran for the text the article's page gave. *)
Definition records (w : World) (r : Row) (a : Article) : Prop :=
  row_title r = title a /\ row_outlet r = outlet a /\ row_url r = url a /\
  exists plaintext,
    fetch_plaintext w a = Returned plaintext /\
    row_tweeted r = match find_matches (matching_grafs a) plaintext with
                    | [] => tweeted a
                    | _ :: _ => true
                    end.

Fixpoint has_key (d : pydict) (key : string) : bool :=
  match d with
  | [] => false
  | (k, _) :: d' => String.eqb k key || has_key d' key
  end.

(** A feed entry without a title or without a link. *)
Definition malformed (entry : pydict) : bool :=
  negb (has_key entry "title") || negb (has_key entry "link").

(** The key whose lookup fails on a malformed entry: [parse_feed] reads
    the title first. *)
Definition missing_key (entry : pydict) : string :=
  if has_key entry "title" then "link" else "title".

(** The articles of a feed that pass the filter of [main], when the feed
    can be read. *)
Definition surviving (w : World) (feed : Feed) (s : St) : list Article :=
  match res (parse_feed w (feed_outlet feed) (feed_url feed) s) with
  | Returned articles =>
      not_recent (select_recent_urls (conn s) (feed_outlet feed)) articles
  | Raised _ => []
  end.

Definition no_insert (ev : Event) : Prop := forall r, ev <> EvInsert r.


(** ** Further vocabulary *)

(** The string is empty or begins with one of the two characters that
    [decruft_url] cuts at. *)
Definition cruft (rest : string) : Prop :=
  rest = "" \/ exists c tail, rest = String c tail /\ (c = "?"%char \/ c = "#"%char).

(** The keys [get_twitter_instance] reads, in the order it reads them. *)
Definition twitter_keys : list string :=
  [ "twitter_app_key"; "twitter_app_secret";
    "twitter_oauth_token"; "twitter_oauth_token_secret" ].

(** The first of [keys] that the dict does not have. *)
Definition first_missing (d : pydict) (keys : list string) : option string :=
  find (fun key => negb (has_key d key)) keys.

(** The article is the object [parse_feed] builds from the entry. *)
Definition built_from (w : World) (o : string) (s : St) (entry : pydict) (a : Article)
  : Prop :=
  getitem entry "title" = Returned (title a) /\
  (exists link, getitem entry "link" = Returned link /\
                res (canonicalize_url w o link s) = Returned (url a)) /\
  outlet a = o /\ matching_grafs a = [] /\ imgs a = [] /\ tweeted a = false.

(** A computation whose result and log do not depend on the state it
    starts from. *)
Definition state_blind {A} (m : M A) : Prop :=
  forall s s', res (m s) = res (m s') /\ evs (m s) = evs (m s').

(** An article as [Article.__init__] leaves it, for the outlet [o]. *)
Definition fresh_of (o : string) (a : Article) : Prop :=
  outlet a = o /\ matching_grafs a = [] /\ imgs a = [] /\ tweeted a = false.

(** The same world with other answers from [upload_media]. *)
Definition with_upload (w : World) (upload : Image -> result Z) : World :=
  {| CONFIG := CONFIG w; rss_feeds := rss_feeds w;
     feedparser_parse := feedparser_parse w;
     requests_head := requests_head w;
     requests_get := requests_get w;
     readable_plaintext := readable_plaintext w;
     pil_render := pil_render w;
     twitter_upload_media := upload;
     twitter_update_status := twitter_update_status w;
     utcnow := utcnow w |}.

(** The status line of the article a row records. *)
Definition row_status (r : Row) : string :=
  (row_outlet r ++ ": " ++ row_title r ++ " " ++ row_url r)%string.

(** Every row the log inserts with [tweeted] set has its status line
    posted in the log, by a call that the client accepted. *)
Definition flags_backed (w : World) (l : list Event) : Prop :=
  forall r, In (EvInsert r) l -> row_tweeted r = true ->
    In (EvUpdateStatus (row_status r) []) l /\
    twitter_update_status w (row_status r) [] = Returned tt.

(** The feeds read in a log. *)
Definition feeds_read (l : list Event) : list string :=
  flat_map (fun ev => match ev with EvParseFeed u => [u] | _ => [] end) l.

Definition is_store_event (ev : Event) : bool :=
  match ev with
  | EvInsert _ | EvCommit | EvSleep _ => true
  | _ => false
  end.

(** The events of the store and of the pause in a log, in order. *)
Definition store_events (l : list Event) : list Event := filter is_store_event l.

(** What the script logs to record the rows [rows]: for each an insert,
    its commit and a pause of one second. *)
Definition recording_of (rows : list Row) : list Event :=
  flat_map (fun r => [EvInsert r; EvCommit; EvSleep 1]) rows.

Definition url_is (u : string) (a : Article) : bool := String.eqb (url a) u.

Definition row_url_is (u : string) (r : Row) : bool := String.eqb (row_url r) u.

(** The rows of the store with a larger id than the row [r]. *)
Definition newer_than (r : Row) (rows : list Row) : list Row :=
  filter (fun x => (row_id r <? row_id x)%Z) rows.

(** A store for one outlet: one row for the address [/old], and above
    it [n] rows for the address [/new]. *)
Definition aged_store (n : nat) : Conn :=
  {| committed :=
       {| row_id := 1; row_title := "Old"; row_outlet := "Example";
          row_url := "http://example.com/old"; row_tweeted := false;
          row_recorded_at := 0 |}
       :: map (fun i => {| row_id := Z.of_nat i; row_title := "New";
                           row_outlet := "Example";
                           row_url := "http://example.com/new";
                           row_tweeted := false; row_recorded_at := 0 |})
              (seq 2 n);
     pending := [] |}.

(** The number of characters of a UTF-8 string: its bytes that are not
    continuation bytes (those from 128 to 191). *)
Definition is_continuation (c : ascii) : bool :=
  (128 <=? nat_of_ascii c)%nat && (nat_of_ascii c <=? 191)%nat.

Fixpoint char_count (s : string) : nat :=
  match s with
  | EmptyString => 0
  | String c s' => (if is_continuation c then 0 else 1) + char_count s'
  end.

(** A configuration without its Twitter token. *)
Definition world_without_token : World :=
  {| CONFIG := [ ("db", "foiafeed.db"); ("twitter_app_key", "k");
                 ("twitter_app_secret", "ks"); ("twitter_oauth_token_secret", "ts") ];
     rss_feeds := rss_feeds Sample.world;
     feedparser_parse := feedparser_parse Sample.world;
     requests_head := requests_head Sample.world;
     requests_get := requests_get Sample.world;
     readable_plaintext := readable_plaintext Sample.world;
     pil_render := pil_render Sample.world;
     twitter_upload_media := twitter_upload_media Sample.world;
     twitter_update_status := twitter_update_status Sample.world;
     utcnow := utcnow Sample.world |}.

(** A world whose pages all read the same text, whatever is asked. *)
Definition world_reading (text : string) : World :=
  Sample.world_with (Returned Sample.entries)
    (fun u => Returned {| headers_location := None; resp_url := u; resp_text := text |})
    (fun _ _ => Returned tt).
(** * Properties *)

(** ** Strings *)

Module PyStrFacts.
Import PyStr.

Lemma split_not_nil (sep : ascii) (s : string) : split sep s <> [].
Proof.
  destruct s as [|c s']; simpl; [discriminate|].
  destruct (Ascii.eqb c sep); [discriminate|].
  destruct (split sep s'); discriminate.
Qed.

Lemma concat_cons_char (sep : string) (c : ascii) (p : string) (ps : list string) :
  String.concat sep (String c p :: ps) = String c (String.concat sep (p :: ps)).
Proof. destruct ps; reflexivity. Qed.

Lemma join_split (sep : ascii) (s : string) : join sep (split sep s) = s.
Proof.
  unfold join. induction s as [|c s' IH]; [reflexivity|].
  simpl split. destruct (Ascii.eqb_spec c sep) as [->|Hne].
  - pose proof (split_not_nil sep s') as Hnn.
    destruct (split sep s') as [|p ps]; [congruence|].
    change (String.concat (String sep "") ("" :: p :: ps))
      with (String sep (String.concat (String sep "") (p :: ps))).
    now rewrite IH.
  - pose proof (split_not_nil sep s') as Hnn.
    destruct (split sep s') as [|p ps]; [congruence|].
    rewrite concat_cons_char. now rewrite IH.
Qed.

Lemma split_pieces_free (sep : ascii) (s : string) :
  Forall (fun piece => has_char sep piece = false) (split sep s).
Proof.
  induction s as [|c s' IH]; simpl.
  - repeat constructor.
  - destruct (Ascii.eqb c sep) eqn:E.
    + constructor; [reflexivity|exact IH].
    + destruct (split sep s') as [|p ps].
      * repeat constructor. simpl. now rewrite E.
      * inversion IH; subst. constructor; [|assumption].
        simpl. now rewrite E.
Qed.

Lemma split_first_free (sep : ascii) (s : string) :
  has_char sep (split_first sep s) = false.
Proof.
  unfold split_first. pose proof (split_pieces_free sep s) as H.
  destruct (split sep s); [reflexivity|]. now inversion H.
Qed.

Lemma split_free (sep : ascii) (s : string) :
  has_char sep s = false -> split sep s = [s].
Proof.
  induction s as [|c s' IH]; simpl; [reflexivity|].
  intros H. apply orb_false_iff in H as [Hc Hs].
  rewrite Hc, (IH Hs). reflexivity.
Qed.

Lemma split_first_free_id (sep : ascii) (s : string) :
  has_char sep s = false -> split_first sep s = s.
Proof. intros H. unfold split_first. now rewrite split_free. Qed.

(** The first piece is a prefix, so it has no character the whole
    string does not have. *)
Lemma split_first_keeps_free (sep c : ascii) (s : string) :
  has_char c s = false -> has_char c (split_first sep s) = false.
Proof.
  unfold split_first. induction s as [|a s' IH]; simpl; [reflexivity|].
  intros H. apply orb_false_iff in H as [Ha Hs].
  destruct (Ascii.eqb a sep); [reflexivity|].
  specialize (IH Hs).
  destruct (split sep s') as [|p ps]; simpl in *; now rewrite Ha.
Qed.

Lemma startswith_spec (p s : string) :
  startswith p s = true <-> exists post, s = (p ++ post)%string.
Proof.
  revert s. induction p as [|a p' IH]; intros s; simpl.
  - split; [intros _; now exists s|reflexivity].
  - destruct s as [|b s'].
    + split; [discriminate|intros [post H]; discriminate].
    + rewrite andb_true_iff, IH. split.
      * intros [Hab [post ->]]. apply Ascii.eqb_eq in Hab as ->. now exists post.
      * intros [post H]. injection H as -> ->. split; [apply Ascii.eqb_refl|now exists post].
Qed.

Lemma contains_spec (p s : string) :
  contains p s = true <-> Substring p s.
Proof.
  unfold Substring. induction s as [|b s' IH].
  - simpl. rewrite orb_false_r, startswith_spec. split.
    + intros [post H]. now exists "", post.
    + intros [pre [post H]]. destruct pre; simpl in H; [now exists post|discriminate].
  - change (contains p (String b s')) with (startswith p (String b s') || contains p s').
    rewrite orb_true_iff, startswith_spec, IH. split.
    + intros [[post H]|[pre [post H]]].
      * now exists "", post.
      * exists (String b pre), post. simpl. now rewrite H.
    + intros [pre [post H]]. destruct pre as [|a pre'].
      * left. now exists post.
      * right. simpl in H. injection H as _ H. now exists pre', post.
Qed.

End PyStrFacts.

(** ** The canonical form of a URL *)

Lemma decruft_url_clean (u : string) :
  PyStr.has_char "?" (decruft_url u) = false /\
  PyStr.has_char "#" (decruft_url u) = false.
Proof.
  unfold decruft_url. split.
  - apply PyStrFacts.split_first_keeps_free, PyStrFacts.split_first_free.
  - apply PyStrFacts.split_first_free.
Qed.

Lemma decruft_url_fixes_clean (u : string) :
  PyStr.has_char "?" u = false -> PyStr.has_char "#" u = false ->
  decruft_url u = u.
Proof.
  intros Hq Hh. unfold decruft_url.
  now rewrite (PyStrFacts.split_first_free_id _ _ Hq), (PyStrFacts.split_first_free_id _ _ Hh).
Qed.

Lemma decruft_url_idempotent (u : string) :
  decruft_url (decruft_url u) = decruft_url u.
Proof.
  destruct (decruft_url_clean u). now apply decruft_url_fixes_clean.
Qed.

(** ** The phrase matcher *)

Lemma FOIA_PHRASES_lowercase :
  Forall (fun phrase => PyStr.lower phrase = phrase) FOIA_PHRASES.
Proof. repeat constructor. Qed.

Lemma graf_matches_spec (graf : string) :
  graf_matches graf = true <-> MentionsLexicon graf.
Proof.
  unfold graf_matches, MentionsLexicon. rewrite existsb_exists.
  pose proof FOIA_PHRASES_lowercase as Hlow. rewrite Forall_forall in Hlow.
  split; intros [phrase [Hin H]]; exists phrase; (split; [exact Hin|]).
  - rewrite (Hlow _ Hin) in H. now apply PyStrFacts.contains_spec.
  - rewrite (Hlow _ Hin). now apply PyStrFacts.contains_spec.
Qed.

Lemma scan_grafs_filter (grafs acc : list string) :
  scan_grafs acc grafs = acc ++ filter graf_matches grafs.
Proof.
  revert acc. induction grafs as [|g rest IH]; intros acc; simpl.
  - now rewrite app_nil_r.
  - destruct (graf_matches g); rewrite IH; [now rewrite <- app_assoc|reflexivity].
Qed.

Example matcher_on_the_sample_text :
  find_matches []
    (PyStr.join newline
       ["Para one."; "This mentions FOIA here.";
        "Para three about public RECORDS LAW."])
  = ["This mentions FOIA here."; "Para three about public RECORDS LAW."].
Proof. reflexivity. Qed.

Example matcher_on_dotted_acronym :
  find_matches [] "The F.O.I.A. request was denied." = ["The F.O.I.A. request was denied."].
Proof. reflexivity. Qed.

Example matcher_keeps_repeats :
  find_matches [] (PyStr.join newline ["foia"; "x"; "foia"]) = ["foia"; "foia"].
Proof. reflexivity. Qed.

(** ** Running monadic code *)

Section MonadFacts.
Context {A B : Type}.
Implicit Types (m : M A) (k : A -> M B) (s : St).

Lemma bind_returned m k s a :
  res (m s) = Returned a ->
  bind m k s = {| res := res (k a (st (m s)));
                  st := st (k a (st (m s)));
                  evs := evs (m s) ++ evs (k a (st (m s))) |}.
Proof. intros H. unfold bind. now rewrite H. Qed.

Lemma bind_raised m k s e :
  res (m s) = Raised e ->
  bind m k s = {| res := Raised e; st := st (m s); evs := evs (m s) |}.
Proof. intros H. unfold bind. now rewrite H. Qed.

Lemma bind_evs_Forall (P : Event -> Prop) m k s :
  Forall P (evs (m s)) ->
  (forall a, res (m s) = Returned a -> Forall P (evs (k a (st (m s))))) ->
  Forall P (evs (bind m k s)).
Proof.
  intros Hm Hk. destruct (res (m s)) as [a|e] eqn:E.
  - rewrite (bind_returned _ _ _ _ E). simpl. apply Forall_app. split; auto.
  - rewrite (bind_raised _ _ _ _ E). exact Hm.
Qed.

Lemma bind_st_inv (I : St -> Prop) m k s :
  I (st (m s)) ->
  (forall a, res (m s) = Returned a -> I (st (k a (st (m s))))) ->
  I (st (bind m k s)).
Proof.
  intros Hm Hk. destruct (res (m s)) as [a|e] eqn:E.
  - rewrite (bind_returned _ _ _ _ E). simpl. auto.
  - rewrite (bind_raised _ _ _ _ E). exact Hm.
Qed.
End MonadFacts.

Lemma pure_state_ret {A} (a : A) : pure_state (ret a).
Proof. now intros s. Qed.

Lemma pure_state_raise {A} (e : exn) : pure_state (@raise A e).
Proof. now intros s. Qed.

Lemma pure_state_log (ev : Event) : pure_state (log ev).
Proof. now intros s. Qed.

Lemma pure_state_outcome {A} (r : result A) : pure_state (outcome r).
Proof. now intros s. Qed.

Lemma pure_state_bind {A B} (m : M A) (k : A -> M B) :
  pure_state m -> (forall a, pure_state (k a)) -> pure_state (bind m k).
Proof.
  intros Hm Hk s. apply (bind_st_inv (fun s' => s' = s)); [apply Hm|].
  intros a _. rewrite Hk. apply Hm.
Qed.

Lemma pure_state_try_except {A} (body : M A) (handler : exn -> M A) :
  pure_state body -> (forall e, pure_state (handler e)) ->
  pure_state (try_except body handler).
Proof.
  intros Hb Hh s. unfold try_except. destruct (res (body s)); simpl.
  - apply Hb.
  - rewrite Hh. apply Hb.
Qed.

Create HintDb pure_state.
#[export] Hint Resolve pure_state_ret pure_state_raise pure_state_log
  pure_state_outcome pure_state_bind pure_state_try_except : pure_state.

Ltac pure_state_step :=
  lazymatch goal with
  | |- forall _, _ => intro
  | |- pure_state (bind _ _) => apply pure_state_bind
  | |- pure_state (try_except _ _) => apply pure_state_try_except
  | |- pure_state (if ?b then _ else _) => destruct b
  | |- pure_state (match ?x with _ => _ end) => destruct x
  end.

Ltac pure_state := repeat pure_state_step; auto with pure_state.

Lemma pure_state_canonicalize_url w o u : pure_state (canonicalize_url w o u).
Proof. unfold canonicalize_url. pure_state. Qed.

Lemma pure_state_Article_init w o t u : pure_state (Article_init w o t u).
Proof. unfold Article_init. pure_state. apply pure_state_canonicalize_url. Qed.

Lemma pure_state_parse_entries w o entries articles :
  pure_state (parse_entries w o entries articles).
Proof.
  revert articles. induction entries as [|entry rest IH]; intros articles; simpl.
  - pure_state.
  - pure_state. apply pure_state_Article_init.
Qed.

Lemma pure_state_parse_feed w o u : pure_state (parse_feed w o u).
Proof. unfold parse_feed. pure_state. apply pure_state_parse_entries. Qed.

Lemma pure_state_clean_article w a : pure_state (clean_article w a).
Proof. unfold clean_article. pure_state. Qed.

Lemma pure_state_check_for_matches w a : pure_state (check_for_matches w a).
Proof. unfold check_for_matches. pure_state. apply pure_state_clean_article. Qed.

Lemma pure_state_get_twitter_instance w : pure_state (get_twitter_instance w).
Proof. unfold get_twitter_instance. pure_state. Qed.

Lemma pure_state_render_loop w width grafs self :
  pure_state (render_loop w width grafs self).
Proof.
  revert self. induction grafs as [|g rest IH]; intros self; simpl.
  - pure_state.
  - unfold render_img. pure_state.
Qed.

Lemma pure_state_upload_loop w self images media_ids :
  pure_state (upload_loop w self images media_ids).
Proof.
  induction images as [|img rest IH]; simpl.
  - pure_state.
  - unfold upload_one, getattr_media_ids. pure_state.
Qed.

#[export] Hint Resolve pure_state_render_loop pure_state_get_twitter_instance
  pure_state_upload_loop : pure_state.

Lemma pure_state_tweet w self : pure_state (tweet w self).
Proof. unfold tweet. pure_state. Qed.

(** ** What [tweet] does, step by step *)

Lemma same_article_refl a : same_article a a.
Proof. now repeat split. Qed.

Lemma same_article_status a b : same_article a b -> status_text a = status_text b.
Proof. intros (Ho & Ht & Hu). unfold status_text. now rewrite Ho, Ht, Hu. Qed.

(** No image upload ever changes the local [media_ids]: the loop
    returns the list it was given, whatever the uploads answer. *)
Lemma upload_loop_run w self images media_ids s :
  upload_loop w self images media_ids s
  = {| res := Returned media_ids; st := s; evs := map EvUpload images |}.
Proof.
  revert s. induction images as [|img rest IH]; intros s; [reflexivity|].
  simpl. unfold bind at 1. unfold try_except, upload_one, getattr_media_ids.
  unfold bind at 1, log, outcome, raise. simpl.
  unfold bind at 1. simpl.
  destruct (twitter_upload_media w img) as [media_id|e]; simpl;
    rewrite IH; reflexivity.
Qed.

Lemma render_loop_run w width grafs :
  forall self s,
  exists k,
    k <= List.length grafs /\
    evs (render_loop w width grafs self s) = render_events width (firstn k grafs) /\
    forall self', res (render_loop w width grafs self s) = Returned self' ->
      k = List.length grafs /\
      exists new_imgs,
        List.length new_imgs = List.length grafs /\
        imgs self' = imgs self ++ new_imgs /\
        same_article self self' /\
        matching_grafs self' = matching_grafs self /\
        tweeted self' = tweeted self.
Proof.
  induction grafs as [|g rest IH]; intros self s.
  - exists 0. split; [simpl; lia|]. split; [reflexivity|].
    intros self' H. injection H as <-. split; [reflexivity|].
    exists []. rewrite app_nil_r. repeat split; reflexivity.
  - simpl render_loop. unfold render_img.
    unfold bind at 1. unfold bind at 1. unfold log, outcome. simpl.
    destruct (pil_render w g width) as [img|e]; simpl.
    + destruct (IH (append_img self img) s) as (k & Hk & Hev & Hres).
      exists (S k). split; [simpl; lia|]. split.
      * simpl. now rewrite Hev.
      * intros self' H. destruct (Hres self' H) as (-> & new_imgs & Hlen & Himgs & Hsame & Hm & Ht).
        split; [reflexivity|]. exists (img :: new_imgs). simpl in *.
        rewrite <- app_assoc in Himgs.
        split; [now rewrite Hlen|]. split; [exact Himgs|].
        split; [exact Hsame|]. split; assumption.
    + exists 1. split; [simpl; lia|]. split; [reflexivity|]. discriminate.
Qed.

Lemma tweet_run w self s :
  let o := tweet w self s in
  let grafs := firstn 4 (matching_grafs self) in
  st o = s /\
  ((exists k e,
       k <= List.length grafs /\
       res o = Raised e /\
       evs o = EvTweet self :: render_events (wrap_width self) (firstn k grafs))
   \/
   (exists new_imgs,
       List.length new_imgs = List.length grafs /\
       evs o = EvTweet self :: render_events (wrap_width self) grafs
                 ++ map EvUpload (imgs self ++ new_imgs)
                 ++ [EvUpdateStatus (status_text self) []] /\
       match res o with
       | Returned self' =>
           twitter_update_status w (status_text self) [] = Returned tt /\
           same_article self self' /\
           matching_grafs self' = matching_grafs self /\
           imgs self' = imgs self ++ new_imgs /\
           tweeted self' = true
       | Raised e => twitter_update_status w (status_text self) [] = Raised e
       end)).
Proof.
  intros o grafs. split; [apply pure_state_tweet|].
  subst o. unfold tweet. fold grafs.
  rewrite (bind_returned (log (EvTweet self)) _ s tt eq_refl). cbn [log res st evs].
  destruct (render_loop_run w (wrap_width self) grafs self s)
    as (k & Hk & Hev & Hres).
  destruct (res (render_loop w (wrap_width self) grafs self s)) as [self1|e] eqn:E1.
  - rewrite (bind_returned _ _ _ _ E1), (pure_state_render_loop w _ grafs self s).
    destruct (Hres self1 eq_refl) as (-> & new_imgs & Hlen & Himgs & Hsame & Hm & Ht).
    rewrite firstn_all in Hev. rewrite Hev. cbn [res st evs].
    assert (Hnoev : evs (get_twitter_instance w s) = []).
    { clear. unfold get_twitter_instance, bind, outcome. simpl.
      repeat match goal with
             | |- context [getitem ?d ?k] => destruct (getitem d k); simpl
             end; reflexivity. }
    destruct (res (get_twitter_instance w s)) as [twitter|e] eqn:E2.
    + rewrite (bind_returned _ _ _ _ E2), (pure_state_get_twitter_instance w s), Hnoev.
      cbn [res st evs app].
      rewrite (bind_returned (upload_loop w self1 (imgs self1) []) _ s []);
        [|now rewrite upload_loop_run].
      rewrite upload_loop_run. cbn [res st evs].
      rewrite (bind_returned (log _) _ s tt eq_refl). cbn [log res st evs].
      rewrite <- (same_article_status _ _ Hsame), Himgs.
      right. exists new_imgs. split; [exact Hlen|].
      unfold bind, outcome, ret. cbn [res st evs].
      destruct (twitter_update_status w (status_text self) []) as [[]|e]; cbn [res st evs].
      * split; [now rewrite app_nil_r|]. cbn. repeat split; auto; apply Hsame.
      * split; reflexivity.
    + rewrite (bind_raised _ _ _ _ E2), Hnoev. cbn [res st evs].
      left. exists (List.length grafs), e. split; [lia|]. split; [reflexivity|].
      now rewrite firstn_all, app_nil_r.
  - rewrite (bind_raised _ _ _ _ E1). cbn [res st evs].
    left. exists k, e. split; [exact Hk|]. split; [reflexivity|]. now rewrite Hev.
Qed.

(** ** Reading the log *)

Lemma rendered_render_events width grafs :
  rendered (render_events width grafs) = map (fun g => (g, width)) grafs.
Proof. induction grafs as [|g rest IH]; simpl; [reflexivity|now rewrite IH]. Qed.

Lemma uploaded_render_events width grafs : uploaded (render_events width grafs) = [].
Proof. induction grafs; simpl; auto. Qed.

Lemma posted_render_events width grafs : posted (render_events width grafs) = [].
Proof. induction grafs; simpl; auto. Qed.

Lemma rendered_uploads images : rendered (map EvUpload images) = [].
Proof. induction images; simpl; auto. Qed.

Lemma uploaded_uploads images : uploaded (map EvUpload images) = images.
Proof. induction images as [|i rest IH]; simpl; [reflexivity|now rewrite IH]. Qed.

Lemma posted_uploads images : posted (map EvUpload images) = [].
Proof. induction images; simpl; auto. Qed.

Lemma firstn_length_le4 {A} (l : list A) : List.length (firstn 4 l) <= 4.
Proof. rewrite length_firstn. lia. Qed.

(** Claim C8.  In [tweet], the width handed to [render_img] is 60 when
    the article holds exactly one matching paragraph and 35 when it
    holds two or more; the paragraphs rendered are the first four
    matching ones, in order (all of them when [tweet] returns, a prefix
    when a call raises), so never more than four; a freshly built
    article has at most four images uploaded, and no post carries more
    than four media ids. *)
Theorem tweet_width_and_cap (w : World) (self : Article) (s : St) :
  let o := tweet w self s in
  let grafs := matching_grafs self in
  (List.length grafs = 1 -> wrap_width self = 60%Z) /\
  (2 <= List.length grafs -> wrap_width self = 35%Z) /\
  (exists k, rendered (evs o)
             = map (fun g => (g, wrap_width self)) (firstn k (firstn 4 grafs))) /\
  List.length (rendered (evs o)) <= 4 /\
  (forall self', res o = Returned self' ->
     rendered (evs o) = map (fun g => (g, wrap_width self)) (firstn 4 grafs) /\
     List.length (imgs self') = List.length (imgs self) + Nat.min 4 (List.length grafs)) /\
  (imgs self = [] -> List.length (uploaded (evs o)) <= 4) /\
  Forall (fun p => List.length (snd p) <= 4) (posted (evs o)).
Proof.
  intros o grafs.
  assert (Hw1 : List.length grafs = 1 -> wrap_width self = 60%Z).
  { intros H. unfold wrap_width. fold grafs. now rewrite H. }
  assert (Hw2 : 2 <= List.length grafs -> wrap_width self = 35%Z).
  { intros H. unfold wrap_width. fold grafs.
    destruct (Nat.eqb_spec (List.length grafs) 1); [lia|reflexivity]. }
  split; [exact Hw1|]. split; [exact Hw2|].
  destruct (tweet_run w self s) as [_ Hrun]. fold o grafs in Hrun.
  destruct Hrun as [(k & e & Hk & Hres & Hev)|(new_imgs & Hlen & Hev & Hres)].
  - assert (Hr : rendered (evs o)
                 = map (fun g => (g, wrap_width self)) (firstn k (firstn 4 grafs))).
    { rewrite Hev. simpl. apply rendered_render_events. }
    split; [now exists k|]. split.
    { rewrite Hr, length_map, length_firstn. pose proof (firstn_length_le4 grafs). lia. }
    split; [intros self' H; congruence|]. split.
    + intros _. rewrite Hev. simpl. rewrite uploaded_render_events. simpl. lia.
    + rewrite Hev. simpl. rewrite posted_render_events. constructor.
  - assert (Hr : rendered (evs o)
                 = map (fun g => (g, wrap_width self)) (firstn 4 grafs)).
    { rewrite Hev. simpl. unfold rendered at 1. rewrite flat_map_app.
      fold (rendered (render_events (wrap_width self) (firstn 4 grafs))).
      rewrite rendered_render_events, flat_map_app.
      fold (rendered (map EvUpload (imgs self ++ new_imgs))).
      rewrite rendered_uploads. simpl. now rewrite app_nil_r. }
    split; [exists 4; now rewrite firstn_firstn|]. split.
    { rewrite Hr, length_map. apply firstn_length_le4. }
    split; [|split].
    + intros self' H. split; [exact Hr|]. rewrite H in Hres.
      destruct Hres as (_ & _ & _ & Himgs & _).
      rewrite Himgs, length_app, Hlen, length_firstn. reflexivity.
    + intros Hnil. rewrite Hev, Hnil. simpl. unfold uploaded. rewrite flat_map_app.
      fold (uploaded (render_events (wrap_width self) (firstn 4 grafs))).
      rewrite uploaded_render_events, flat_map_app.
      fold (uploaded (map EvUpload new_imgs)).
      rewrite uploaded_uploads. simpl. rewrite app_nil_r, Hlen.
      apply firstn_length_le4.
    + rewrite Hev. simpl. unfold posted. rewrite flat_map_app.
      fold (posted (render_events (wrap_width self) (firstn 4 grafs))).
      rewrite posted_render_events, flat_map_app.
      fold (posted (map EvUpload (imgs self ++ new_imgs))).
      rewrite posted_uploads. simpl. constructor; [simpl; lia|constructor].
Qed.

(** ** One turn of the inner loop of [main] *)

Lemma clean_article_run w a s :
  clean_article w a s
  = {| res := fetch_plaintext w a; st := s; evs := [EvGet (url a)] |}.
Proof.
  unfold clean_article, fetch_plaintext, bind, log, outcome. simpl.
  destruct (requests_get w (url a)) as [r|e]; simpl; [|reflexivity].
  destruct (readable_plaintext w (resp_text r)); reflexivity.
Qed.

Lemma check_for_matches_run w self s :
  check_for_matches w self s
  = {| res := match fetch_plaintext w self with
              | Returned plaintext =>
                  Returned (set_matching_grafs self
                              (find_matches (matching_grafs self) plaintext))
              | Raised e => Raised e
              end;
       st := s;
       evs := [EvCheckForMatches self; EvGet (url self)] |}.
Proof.
  unfold check_for_matches.
  rewrite (bind_returned (log _) _ s tt eq_refl). cbn [log res st evs].
  unfold bind. rewrite clean_article_run. cbn [res st evs].
  destruct (fetch_plaintext w self); reflexivity.
Qed.

Lemma process_article_run w counter total a s :
  let cm := check_for_matches w a s in
  let head := EvPrintChecking (outlet a) counter total :: evs cm in
  process_article w counter total a s =
  match res cm with
  | Raised e => {| res := Raised e; st := s; evs := head |}
  | Returned a1 =>
      let t := tweet_if_matching w a1 s in
      match res t with
      | Raised e => {| res := Raised e; st := s; evs := head ++ evs t |}
      | Returned a2 =>
          let r := recorded_row w s a2 in
          {| res := Returned tt; st := after_record s r;
             evs := head ++ evs t ++ [EvInsert r; EvCommit; EvSleep 1] |}
      end
  end.
Proof.
  intros cm head. unfold process_article.
  rewrite (bind_returned (log _) _ s tt eq_refl). cbn [log res st evs].
  assert (Hst : st cm = s) by apply pure_state_check_for_matches.
  fold cm. destruct (res cm) as [a1|e] eqn:E1.
  - rewrite (bind_returned _ _ _ _ E1). fold cm. rewrite Hst. cbn [res st evs].
    fold (tweet_if_matching w a1).
    assert (Hst2 : st (tweet_if_matching w a1 s) = s).
    { unfold tweet_if_matching. destruct (matching_grafs a1); [reflexivity|].
      apply pure_state_bind; [apply pure_state_log|intros; apply pure_state_tweet]. }
    destruct (res (tweet_if_matching w a1 s)) as [a2|e] eqn:E2.
    + rewrite (bind_returned _ _ _ _ E2), Hst2. cbn [res st evs].
      unfold bind, datetime_utcnow, execute_insert, commit, log, visible,
        after_record, recorded_row, next_id, visible. cbn.
      rewrite <- !app_assoc. reflexivity.
    + rewrite (bind_raised _ _ _ _ E2), Hst2. cbn [res st evs]. reflexivity.
  - rewrite (bind_raised _ _ _ _ E1). fold cm. rewrite Hst. reflexivity.
Qed.

(** ** The paragraphs the matcher keeps *)

Lemma same_letterb_spec (a b : ascii) : same_letterb a b = true <-> same_letter a b.
Proof.
  unfold same_letterb, same_letter.
  rewrite orb_true_iff, Ascii.eqb_eq, existsb_exists. split.
  - intros [H|([x y] & Hin & H)]; [now left|right].
    simpl in H. apply orb_true_iff in H as [H|H];
      apply andb_true_iff in H as [Hx Hy];
      apply Ascii.eqb_eq in Hx, Hy; subst; auto.
  - intros [H|[H|H]]; [now left| |]; right.
    + exists (a, b). split; [exact H|]. simpl. now rewrite !Ascii.eqb_refl.
    + exists (b, a). split; [exact H|]. simpl. rewrite !Ascii.eqb_refl.
      apply orb_true_r.
Qed.

Lemma all_ascii_complete (a : ascii) : In a all_ascii.
Proof.
  unfold all_ascii. rewrite <- (ascii_nat_embedding a). apply in_map.
  apply in_seq. pose proof (nat_ascii_bounded a). lia.
Qed.

(** [lower_char] against the table of letters, on all pairs of
    characters. *)
Lemma lower_char_table :
  forallb (fun a =>
    forallb (fun b =>
      Bool.eqb (Ascii.eqb (PyStr.lower_char a) (PyStr.lower_char b)) (same_letterb a b))
      all_ascii) all_ascii = true.
Proof. vm_compute. reflexivity. Qed.

Lemma lower_char_same_letter (a b : ascii) :
  PyStr.lower_char a = PyStr.lower_char b <-> same_letter a b.
Proof.
  pose proof lower_char_table as H. rewrite forallb_forall in H.
  specialize (H a (all_ascii_complete a)). rewrite forallb_forall in H.
  specialize (H b (all_ascii_complete b)). apply Bool.eqb_prop in H.
  rewrite <- same_letterb_spec, <- H. symmetry. apply Ascii.eqb_eq.
Qed.

Lemma lower_eq_caseless (s t : string) :
  PyStr.lower s = PyStr.lower t <-> caseless_eq s t.
Proof.
  revert t. induction s as [|a s IH]; intros [|b t]; simpl; try (split; easy).
  rewrite <- IH, <- lower_char_same_letter. split.
  - intros H. now injection H.
  - intros [-> ->]. reflexivity.
Qed.

Lemma lower_preimage_app (g x y : string) :
  PyStr.lower g = (x ++ y)%string ->
  exists g1 g2, g = (g1 ++ g2)%string /\ PyStr.lower g1 = x /\ PyStr.lower g2 = y.
Proof.
  revert g. induction x as [|c x IH]; intros g H.
  - exists "", g. now repeat split.
  - destruct g as [|a g]; simpl in H; [discriminate|].
    injection H as Hc Hg. destruct (IH g Hg) as (g1 & g2 & -> & H1 & H2).
    exists (String a g1), g2. simpl. now rewrite Hc, H1.
Qed.

Lemma lower_app_early (a b : string) :
  PyStr.lower (a ++ b) = (PyStr.lower a ++ PyStr.lower b)%string.
Proof. induction a as [|c a IH]; simpl; [reflexivity|now rewrite IH]. Qed.

Lemma occurs_lower_caseless (phrase g : string) :
  PyStr.Substring (PyStr.lower phrase) (PyStr.lower g) <-> OccursCaseless phrase g.
Proof.
  split.
  - intros (pre & post & H).
    apply lower_preimage_app in H as (g1 & g2 & -> & _ & H).
    apply lower_preimage_app in H as (mid & g3 & -> & H & _).
    exists g1, mid, g3. split; [reflexivity|]. now apply lower_eq_caseless.
  - intros (pre & mid & post & -> & H). apply lower_eq_caseless in H.
    exists (PyStr.lower pre), (PyStr.lower post).
    now rewrite !lower_app_early, H.
Qed.

Lemma graf_matches_caseless (graf : string) :
  graf_matches graf = true <-> MentionsCaseless graf.
Proof.
  unfold graf_matches, MentionsCaseless. rewrite existsb_exists.
  split; intros (phrase & Hin & H); exists phrase; (split; [exact Hin|]).
  - now apply occurs_lower_caseless, PyStrFacts.contains_spec.
  - now apply PyStrFacts.contains_spec, occurs_lower_caseless.
Qed.

Lemma filter_nil_iff {A} (f : A -> bool) (l : list A) :
  filter f l = [] <-> forall x, In x l -> f x = false.
Proof.
  induction l as [|a l IH]; simpl.
  - split; [intros _ x []|reflexivity].
  - destruct (f a) eqn:E.
    + split; [discriminate|]. intros H. specialize (H a (or_introl eq_refl)). congruence.
    + rewrite IH. split.
      * intros H x [<-|Hin]; auto.
      * intros H x Hin. apply H. now right.
Qed.

Lemma count_occ_filter_true (f : string -> bool) (l : list string) (x : string) :
  f x = true -> count_occ string_dec (filter f l) x = count_occ string_dec l x.
Proof.
  intros Hx. induction l as [|a l IH]; simpl; [reflexivity|].
  destruct (f a) eqn:E; simpl.
  - destruct (string_dec a x); now rewrite IH.
  - destruct (string_dec a x) as [->|]; [congruence|exact IH].
Qed.

(** Claim C3.  The matcher returns exactly the paragraphs of the text
    that contain, case-insensitively, a phrase of the lexicon: the
    paragraphs are the pieces between newlines (joining them with
    newlines gives the text back, and no piece holds a newline); a
    paragraph is kept exactly when some phrase occurs in it up to the
    case of the letters on both sides, which is also when the phrase
    occurs in its lowercased form; the kept paragraphs come in the
    order of the text, unchanged, each as often as it occurs, and none
    is kept exactly when no paragraph mentions the lexicon; and when
    the text of an article is this text, [check_for_matches] returns
    the article with these paragraphs added at the end of its
    [matching_grafs] (which makes them the whole list for a fresh
    article) and with its outlet, title and URL as they were, while an
    extraction that raises makes [check_for_matches] raise the same. *)
Theorem check_for_matches_exact (plaintext : string) :
  let grafs := PyStr.split newline plaintext in
  PyStr.join newline grafs = plaintext /\
  Forall (fun g => PyStr.has_char newline g = false) grafs /\
  (forall g, graf_matches g = true <-> MentionsLexicon g) /\
  find_matches [] plaintext = filter graf_matches grafs /\
  (forall g, In g (find_matches [] plaintext) <-> In g grafs /\ MentionsLexicon g) /\
  (forall g, MentionsLexicon g ->
     count_occ string_dec (find_matches [] plaintext) g = count_occ string_dec grafs g) /\
  (find_matches [] plaintext = [] <-> forall g, In g grafs -> ~ MentionsLexicon g) /\
  (forall w self s,
     res (check_for_matches w self s)
     = match res (clean_article w self s) with
       | Returned text =>
           Returned (set_matching_grafs self (find_matches (matching_grafs self) text))
       | Raised e => Raised e
       end) /\
  (forall g, graf_matches g = true <-> MentionsCaseless g) /\
  (forall g, In g (find_matches [] plaintext) <-> In g grafs /\ MentionsCaseless g) /\
  (forall g, MentionsCaseless g ->
     count_occ string_dec (find_matches [] plaintext) g = count_occ string_dec grafs g) /\
  (find_matches [] plaintext = [] <-> forall g, In g grafs -> ~ MentionsCaseless g) /\
  (forall w self s,
     res (clean_article w self s) = Returned plaintext ->
     exists self',
       res (check_for_matches w self s) = Returned self' /\
       matching_grafs self' = matching_grafs self ++ filter graf_matches grafs /\
       (matching_grafs self = [] -> matching_grafs self' = filter graf_matches grafs) /\
       outlet self' = outlet self /\ title self' = title self /\ url self' = url self) /\
  (forall w self s e,
     res (clean_article w self s) = Raised e ->
     res (check_for_matches w self s) = Raised e).
Proof.
  intros grafs.
  assert (Hfm : find_matches [] plaintext = filter graf_matches grafs).
  { unfold find_matches. now rewrite scan_grafs_filter. }
  assert (Hnil : forall P : string -> Prop,
             (forall g, graf_matches g = true <-> P g) ->
             (find_matches [] plaintext = [] <-> forall g, In g grafs -> ~ P g)).
  { intros P HP. rewrite Hfm, filter_nil_iff. split.
    - intros H g Hin Hm. apply HP in Hm. rewrite (H g Hin) in Hm. discriminate.
    - intros H g Hin. destruct (graf_matches g) eqn:E; [|reflexivity].
      exfalso. apply (H g Hin). now apply HP. }
  split; [apply PyStrFacts.join_split|].
  split; [apply PyStrFacts.split_pieces_free|].
  split; [apply graf_matches_spec|].
  split; [exact Hfm|].
  split; [intros g; rewrite Hfm, filter_In, graf_matches_spec; reflexivity|].
  split.
  { intros g Hg. rewrite Hfm. apply count_occ_filter_true. now apply graf_matches_spec. }
  split; [apply Hnil, graf_matches_spec|].
  split; [intros w self s; now rewrite check_for_matches_run, clean_article_run|].
  split; [apply graf_matches_caseless|].
  split; [intros g; rewrite Hfm, filter_In, graf_matches_caseless; reflexivity|].
  split.
  { intros g Hg. rewrite Hfm. apply count_occ_filter_true. now apply graf_matches_caseless. }
  split; [apply Hnil, graf_matches_caseless|].
  split.
  - intros w self s Htext. rewrite clean_article_run in Htext. cbn [res] in Htext.
    eexists. split.
    + rewrite check_for_matches_run. cbn [res]. rewrite Htext. reflexivity.
    + cbn [matching_grafs outlet title url set_matching_grafs].
      unfold find_matches. fold grafs. rewrite scan_grafs_filter.
      split; [reflexivity|]. split; [now intros ->|]. now repeat split.
  - intros w self s e Hraise. rewrite clean_article_run in Hraise. cbn [res] in Hraise.
    rewrite check_for_matches_run. cbn [res]. now rewrite Hraise.
Qed.

Example matcher_ignores_case :
  map graf_matches
      ["An open records request."; "AN OPEN RECORDS REQUEST."; "An oPeN rEcOrDs request.";
       "An open-records law."]
  = [true; true; true; false].
Proof. reflexivity. Qed.

(** ** Canonicalising twice *)

Lemma canonicalize_url_direct w o u s :
  str_in o ["ProPublica"; "Reuters"] = false ->
  canonicalize_url w o u s
  = {| res := Returned (if negb (str_in o ["AP"]) then decruft_url u else u);
       st := s; evs := [] |}.
Proof. intros H. unfold canonicalize_url. now rewrite H. Qed.

Lemma canonicalize_url_resolving w o u s :
  str_in o ["ProPublica"; "Reuters"] = true ->
  canonicalize_url w o u s
  = {| res := match requests_head w u with
              | Returned r => Returned (decruft_url (redirect_target r))
              | Raised e => Raised e
              end;
       st := s; evs := [EvHead u] |}.
Proof.
  intros H. unfold canonicalize_url. rewrite H.
  assert (Hap : str_in o ["AP"] = false).
  { unfold str_in in *. simpl in *. rewrite !orb_false_r in *.
    apply orb_true_iff in H as [H|H]; apply String.eqb_eq in H; subst; reflexivity. }
  rewrite Hap. unfold bind, log, outcome, ret, redirect_target. simpl.
  destruct (requests_head w u); reflexivity.
Qed.

(** Claim C7, amended.  Stripping the query string and the
    fragment is idempotent, and canonicalising a canonical URL gives it
    back for every outlet whose links are not resolved over the
    network; for ProPublica and Reuters it does so when the lookup of
    the canonical URL ends on an address that strips to the canonical
    URL itself. *)
Theorem canonicalize_url_idempotent (w : World) (o u c : string) (s s' : St) :
  res (canonicalize_url w o u s) = Returned c ->
  (str_in o ["ProPublica"; "Reuters"] = true ->
   exists r, requests_head w c = Returned r /\ decruft_url (redirect_target r) = c) ->
  res (canonicalize_url w o c s') = Returned c /\
  decruft_url (decruft_url u) = decruft_url u.
Proof.
  intros Hc Hstable. split; [|apply decruft_url_idempotent].
  destruct (str_in o ["ProPublica"; "Reuters"]) eqn:E.
  - destruct (Hstable eq_refl) as (r & Hr & Hd).
    rewrite (canonicalize_url_resolving _ _ _ _ E). simpl. now rewrite Hr, Hd.
  - rewrite (canonicalize_url_direct w o u s E) in Hc.
    rewrite (canonicalize_url_direct w o c s' E).
    cbn [res] in *. destruct (negb (str_in o ["AP"])); [|reflexivity].
    injection Hc as <-. now rewrite decruft_url_idempotent.
Qed.

Lemma canonicalize_url_idempotent_witness :
  res (canonicalize_url Sample.world "Reuters" "http://example.com/a?utm=rss#top"
         Sample.start) = Returned "http://example.com/a" /\
  res (canonicalize_url Sample.world "Reuters" "http://example.com/a" Sample.start)
  = Returned "http://example.com/a".
Proof.
  split; [reflexivity|].
  apply (canonicalize_url_idempotent Sample.world "Reuters"
           "http://example.com/a?utm=rss#top" "http://example.com/a"
           Sample.start Sample.start).
  - reflexivity.
  - intros _. exists (Sample.page "http://example.com/a"). split; reflexivity.
Defined.

(** Claim C7 as the specification words it fails for an outlet whose links
    are resolved: the second lookup asks the server about another
    address than the first. *)
Lemma canonicalize_url_twice_differs :
  res (canonicalize_url Sample.world_redirects "Reuters"
         "http://feeds.example.com/r/7" Sample.start)
  = Returned "http://example.com/story" /\
  res (canonicalize_url Sample.world_redirects "Reuters"
         "http://example.com/story" Sample.start)
  <> Returned "http://example.com/story".
Proof. split; [reflexivity|discriminate]. Qed.

(** ** Logs of composed code *)

Lemma bind_evs_closed {A B} (P : list Event -> Prop) (m : M A) (k : A -> M B) s :
  (forall l1 l2, P l1 -> P l2 -> P (l1 ++ l2)) ->
  P (evs (m s)) ->
  (forall a, res (m s) = Returned a -> P (evs (k a (st (m s))))) ->
  P (evs (bind m k s)).
Proof.
  intros Happ Hm Hk. destruct (res (m s)) as [a|e] eqn:E.
  - rewrite (bind_returned _ _ _ _ E). simpl. apply Happ; auto.
  - rewrite (bind_raised _ _ _ _ E). exact Hm.
Qed.

Lemma in_posted l status media_ids :
  In (status, media_ids) (posted l) <-> In (EvUpdateStatus status media_ids) l.
Proof.
  unfold posted. rewrite in_flat_map. split.
  - intros [ev [Hin H]]. destruct ev; simpl in H; try contradiction.
    destruct H as [H|[]]. injection H as -> ->. exact Hin.
  - intros H. exists (EvUpdateStatus status media_ids). split; [exact H|now left].
Qed.

Lemma well_posted_app l1 l2 : well_posted l1 -> well_posted l2 -> well_posted (l1 ++ l2).
Proof.
  intros H1 H2 status mids Hin. apply in_app_or in Hin as [Hin|Hin].
  - destruct (H1 _ _ Hin) as (-> & a & Ha & ->). split; [reflexivity|].
    exists a. split; [apply in_or_app; now left|reflexivity].
  - destruct (H2 _ _ Hin) as (-> & a & Ha & ->). split; [reflexivity|].
    exists a. split; [apply in_or_app; now right|reflexivity].
Qed.

Lemma well_posted_quiet l :
  Forall (fun ev => forall st m, ev <> EvUpdateStatus st m) l -> well_posted l.
Proof.
  intros H status mids Hin. rewrite Forall_forall in H.
  exfalso. exact (H _ Hin status mids eq_refl).
Qed.

Lemma feed_event_quiet l :
  Forall feed_event l -> Forall (fun ev => forall st m, ev <> EvUpdateStatus st m) l.
Proof.
  apply Forall_impl. intros ev H st m ->. exact H.
Qed.

(** ** The log of [tweet] *)

Lemma tweet_events w self s :
  exists rest,
    evs (tweet w self s) = EvTweet self :: rest /\
    Forall (fun ev => (exists g width, ev = EvRender g width) \/
                      (exists img, ev = EvUpload img) \/
                      ev = EvUpdateStatus (status_text self) []) rest.
Proof.
  assert (Hr : forall width grafs,
             Forall (fun ev => (exists g width, ev = EvRender g width) \/
                               (exists img, ev = EvUpload img) \/
                               ev = EvUpdateStatus (status_text self) [])
                    (render_events width grafs)).
  { intros width grafs. unfold render_events. apply Forall_forall.
    intros ev Hin. apply in_map_iff in Hin as (g & <- & _). left. eauto. }
  destruct (tweet_run w self s) as [_ [(k & e & _ & _ & Hev)|(new_imgs & _ & Hev & _)]];
    rewrite Hev; eexists; (split; [reflexivity|]).
  - apply Hr.
  - apply Forall_app. split; [apply Hr|]. apply Forall_app. split.
    + apply Forall_forall. intros ev Hin.
      apply in_map_iff in Hin as (img & <- & _). right. left. eauto.
    + constructor; [|constructor]. right. right. reflexivity.
Qed.

Lemma tweet_event_of w self s : Forall (event_of self) (evs (tweet w self s)).
Proof.
  destruct (tweet_events w self s) as (rest & -> & Hrest).
  constructor; [apply same_article_refl|].
  revert Hrest. apply Forall_impl.
  intros ev [(g & width & ->)|[(img & ->)| ->]]; simpl; auto.
Qed.

Lemma tweet_well_posted w self s : well_posted (evs (tweet w self s)).
Proof.
  destruct (tweet_events w self s) as (rest & Hev & Hrest).
  intros status mids Hin. rewrite Hev in Hin. destruct Hin as [Hin|Hin]; [discriminate|].
  rewrite Forall_forall in Hrest.
  destruct (Hrest _ Hin) as [(g & width & H)|[(img & H)|H]]; try discriminate.
  injection H as -> ->. split; [reflexivity|].
  exists self. split; [rewrite Hev; now left|reflexivity].
Qed.

(** ** The statuses [tweet] posts *)

Lemma tweet_posted w self s :
  posted (evs (tweet w self s)) = [] \/
  posted (evs (tweet w self s)) = [(status_text self, [])].
Proof.
  destruct (tweet_run w self s) as [_ [(k & e & _ & _ & Hev)|(new_imgs & _ & Hev & _)]];
    rewrite Hev; simpl.
  - left. apply posted_render_events.
  - right. unfold posted. rewrite flat_map_app.
    fold (posted (render_events (wrap_width self) (firstn 4 (matching_grafs self)))).
    rewrite posted_render_events, flat_map_app.
    fold (posted (map EvUpload (imgs self ++ new_imgs))).
    now rewrite posted_uploads.
Qed.

Lemma tweet_posted_returned w self s self' :
  res (tweet w self s) = Returned self' ->
  posted (evs (tweet w self s)) = [(status_text self, [])].
Proof.
  intros H.
  destruct (tweet_run w self s) as [_ [(k & e & _ & Hres & _)|(new_imgs & _ & Hev & _)]].
  - congruence.
  - rewrite Hev. simpl. unfold posted. rewrite flat_map_app.
    fold (posted (render_events (wrap_width self) (firstn 4 (matching_grafs self)))).
    rewrite posted_render_events, flat_map_app.
    fold (posted (map EvUpload (imgs self ++ new_imgs))).
    now rewrite posted_uploads.
Qed.

(** ** The log of one turn, and of the inner loop *)

Lemma same_article_trans a b c : same_article a b -> same_article b c -> same_article a c.
Proof. intros (H1 & H2 & H3) (H4 & H5 & H6). repeat split; congruence. Qed.

Lemma event_of_same a b ev : same_article a b -> event_of b ev -> event_of a ev.
Proof.
  intros Hab. pose proof (same_article_status _ _ Hab) as Hs.
  destruct Hab as (Ho & Ht & Hu).
  destruct ev; simpl; auto.
  - intros ->. now symmetry.
  - intros (H1 & H2 & H3). repeat split; congruence.
  - intros (H1 & H2 & H3). repeat split; congruence.
  - intros [-> ->]. now split.
  - intros (H1 & H2 & H3). repeat split; congruence.
Qed.

Lemma check_for_matches_returned w a s a1 :
  res (check_for_matches w a s) = Returned a1 ->
  same_article a a1 /\ imgs a1 = imgs a /\ tweeted a1 = tweeted a /\
  exists plaintext, fetch_plaintext w a = Returned plaintext /\
                    matching_grafs a1 = find_matches (matching_grafs a) plaintext.
Proof.
  rewrite check_for_matches_run. simpl.
  destruct (fetch_plaintext w a) as [p|e]; [|discriminate].
  intros H. injection H as <-. repeat split. now exists p.
Qed.

Lemma tweet_if_matching_event_of w a s :
  Forall (event_of a) (evs (tweet_if_matching w a s)).
Proof.
  unfold tweet_if_matching. destruct (matching_grafs a); [constructor|].
  rewrite (bind_returned (log _) _ s tt eq_refl). cbn [log res st evs app].
  constructor; [exact I|apply tweet_event_of].
Qed.

Lemma tweet_if_matching_well_posted w a s :
  well_posted (evs (tweet_if_matching w a s)).
Proof.
  unfold tweet_if_matching. destruct (matching_grafs a).
  - intros ? ? [].
  - rewrite (bind_returned (log _) _ s tt eq_refl). cbn [log res st evs].
    apply (well_posted_app [EvPrintGotOne]); [|apply tweet_well_posted].
    apply well_posted_quiet. repeat constructor. discriminate.
Qed.

Lemma tweet_if_matching_returned w a s a' :
  res (tweet_if_matching w a s) = Returned a' ->
  same_article a a' /\
  tweeted a' = match matching_grafs a with [] => tweeted a | _ :: _ => true end.
Proof.
  unfold tweet_if_matching. destruct (matching_grafs a) eqn:E.
  - intros H. injection H as <-. split; [apply same_article_refl|reflexivity].
  - rewrite (bind_returned (log _) _ s tt eq_refl). cbn [log res st evs]. intros H.
    destruct (tweet_run w a s) as [_ [(k & e & _ & Hres & _)|(new_imgs & _ & _ & Hres)]].
    + congruence.
    + rewrite H in Hres. destruct Hres as (_ & Hsame & _ & _ & Ht). now split.
Qed.

Lemma process_article_event_of w counter total a s :
  Forall (event_of a) (evs (process_article w counter total a s)).
Proof.
  rewrite process_article_run. cbv zeta.
  assert (Hcm : Forall (event_of a) (evs (check_for_matches w a s))).
  { rewrite check_for_matches_run. simpl.
    repeat constructor; apply same_article_refl. }
  destruct (res (check_for_matches w a s)) as [a1|e] eqn:E1; cbn [evs].
  - destruct (check_for_matches_returned _ _ _ _ E1) as (Hsame & _).
    assert (Ht : Forall (event_of a) (evs (tweet_if_matching w a1 s))).
    { generalize (tweet_if_matching_event_of w a1 s). apply Forall_impl.
      intros ev. now apply event_of_same. }
    destruct (res (tweet_if_matching w a1 s)) as [a2|e] eqn:E2; cbn [evs].
    + destruct (tweet_if_matching_returned _ _ _ _ E2) as (Hsame2 & _).
      pose proof (same_article_trans _ _ _ Hsame Hsame2) as (Ho & Htt & Hu).
      constructor; [exact I|]. apply Forall_app. split; [exact Hcm|].
      apply Forall_app. split; [exact Ht|].
      repeat constructor; simpl; congruence.
    + constructor; [exact I|]. apply Forall_app. now split.
  - constructor; [exact I|exact Hcm].
Qed.

Lemma process_article_well_posted w counter total a s :
  well_posted (evs (process_article w counter total a s)).
Proof.
  rewrite process_article_run. cbv zeta.
  assert (Hhead : well_posted (EvPrintChecking (outlet a) counter total
                                 :: evs (check_for_matches w a s))).
  { apply well_posted_quiet. rewrite check_for_matches_run. simpl.
    repeat constructor; discriminate. }
  destruct (res (check_for_matches w a s)) as [a1|e] eqn:E1; cbn [evs]; [|exact Hhead].
  pose proof (tweet_if_matching_well_posted w a1 s) as Ht.
  destruct (res (tweet_if_matching w a1 s)) as [a2|e] eqn:E2; cbn [evs].
  - apply well_posted_app; [exact Hhead|].
    apply well_posted_app; [exact Ht|].
    apply well_posted_quiet. repeat constructor; discriminate.
  - now apply well_posted_app.
Qed.

Lemma process_articles_event_of w articles :
  forall counter total s,
    Forall (fun ev => exists a, In a articles /\ event_of a ev)
           (evs (process_articles w counter total articles s)).
Proof.
  induction articles as [|a rest IH]; intros counter total s; simpl; [constructor|].
  apply bind_evs_Forall.
  - generalize (process_article_event_of w counter total a s). apply Forall_impl.
    intros ev H. exists a. split; [now left|exact H].
  - intros _ _. generalize (IH (S counter) total (st (process_article w counter total a s))).
    apply Forall_impl. intros ev (a' & Hin & H). exists a'. split; [now right|exact H].
Qed.

Lemma process_articles_well_posted w articles :
  forall counter total s,
    well_posted (evs (process_articles w counter total articles s)).
Proof.
  induction articles as [|a rest IH]; intros counter total s; simpl.
  - intros ? ? [].
  - apply bind_evs_closed; [apply well_posted_app|apply process_article_well_posted|].
    intros _ _. apply IH.
Qed.

(** ** The log of reading a feed *)

Lemma canonicalize_url_feed_event w o u s :
  Forall feed_event (evs (canonicalize_url w o u s)).
Proof.
  destruct (str_in o ["ProPublica"; "Reuters"]) eqn:E.
  - rewrite (canonicalize_url_resolving _ _ _ _ E). repeat constructor.
  - rewrite (canonicalize_url_direct _ _ _ _ E). constructor.
Qed.

Lemma parse_entries_feed_event w o entries :
  forall articles s, Forall feed_event (evs (parse_entries w o entries articles s)).
Proof.
  induction entries as [|entry rest IH]; intros articles s; simpl; [constructor|].
  apply bind_evs_Forall; [constructor|]. intros t _.
  apply bind_evs_Forall; [constructor|]. intros u _.
  apply bind_evs_Forall.
  - unfold Article_init. apply bind_evs_Forall; [apply canonicalize_url_feed_event|].
    intros; constructor.
  - intros a _. apply IH.
Qed.

Lemma parse_feed_feed_event w o u s : Forall feed_event (evs (parse_feed w o u s)).
Proof.
  unfold parse_feed. apply bind_evs_Forall; [repeat constructor|]. intros _ _.
  apply bind_evs_Forall; [constructor|]. intros entries _.
  apply parse_entries_feed_event.
Qed.

(** ** The query for the recent URLs *)

Lemma insert_desc_perm r l : Permutation (insert_desc r l) (r :: l).
Proof.
  induction l as [|x rest IH]; simpl; [reflexivity|].
  destruct (row_id x <? row_id r)%Z; [reflexivity|].
  rewrite IH. apply perm_swap.
Qed.

Lemma order_by_id_desc_perm rows : Permutation (order_by_id_desc rows) rows.
Proof.
  induction rows as [|r rest IH]; simpl; [reflexivity|].
  rewrite insert_desc_perm. now constructor.
Qed.

Lemma insert_desc_sorted r l :
  StronglySorted newer_first l -> StronglySorted newer_first (insert_desc r l).
Proof.
  induction 1 as [|x rest Hs IH Hx]; simpl.
  - repeat constructor.
  - destruct (Z.ltb_spec (row_id x) (row_id r)) as [Hlt|Hge].
    + constructor; [now constructor|]. constructor; [unfold newer_first; lia|].
      revert Hx. apply Forall_impl. unfold newer_first. intros; lia.
    + constructor; [exact IH|].
      apply (Permutation_Forall (Permutation_sym (insert_desc_perm r rest))).
      constructor; [exact Hge|exact Hx].
Qed.

Lemma order_by_id_desc_sorted rows : StronglySorted newer_first (order_by_id_desc rows).
Proof.
  induction rows as [|r rest IH]; simpl; [constructor|now apply insert_desc_sorted].
Qed.

Lemma select_recent_urls_spec c o :
  let sorted := order_by_id_desc (outlet_rows o (visible c)) in
  select_recent_urls c o = map row_url (firstn 1000 sorted) /\
  Permutation sorted (outlet_rows o (visible c)) /\
  StronglySorted newer_first sorted /\
  List.length (select_recent_urls c o)
  = Nat.min (List.length (outlet_rows o (visible c))) 1000.
Proof.
  intros sorted. split; [reflexivity|].
  split; [apply order_by_id_desc_perm|]. split; [apply order_by_id_desc_sorted|].
  unfold select_recent_urls, sorted.
  rewrite length_map, length_firstn.
  rewrite (Permutation_length (order_by_id_desc_perm (outlet_rows o (visible c)))).
  apply Nat.min_comm.
Qed.

Lemma str_in_spec x l : str_in x l = true <-> In x l.
Proof.
  unfold str_in. rewrite existsb_exists. split.
  - intros (y & Hin & H). apply String.eqb_eq in H as ->. exact Hin.
  - intros H. exists x. split; [exact H|apply String.eqb_refl].
Qed.

Lemma not_recent_spec recent articles a :
  In a (not_recent recent articles) <-> In a articles /\ ~ In (url a) recent.
Proof.
  unfold not_recent. rewrite filter_In, negb_true_iff.
  rewrite <- str_in_spec. destruct (str_in (url a) recent); intuition congruence.
Qed.

(** ** One turn of the outer loop of [main] *)

Lemma process_feed_run w feed s :
  let pf := parse_feed w (feed_outlet feed) (feed_url feed) s in
  process_feed w feed s =
  match res pf with
  | Raised e => {| res := Raised e; st := s; evs := evs pf |}
  | Returned articles =>
      let kept := not_recent (select_recent_urls (conn s) (feed_outlet feed)) articles in
      let pa := process_articles w 1 (List.length kept) kept s in
      {| res := res pa; st := st pa; evs := evs pf ++ evs pa |}
  end.
Proof.
  intros pf. unfold process_feed. fold pf.
  assert (Hst : st pf = s) by apply pure_state_parse_feed.
  destruct (res pf) as [articles|e] eqn:E.
  - rewrite (bind_returned _ _ _ _ E). fold pf. rewrite Hst.
    rewrite (bind_returned (execute_select_recent (feed_outlet feed)) _ s
               (select_recent_urls (conn s) (feed_outlet feed)) eq_refl).
    reflexivity.
  - rewrite (bind_raised _ _ _ _ E). fold pf. now rewrite Hst.
Qed.

Lemma feed_event_untouched u l : Forall feed_event l -> Forall (untouched u) l.
Proof. apply Forall_impl. intros ev. destruct ev; simpl; auto; contradiction. Qed.

Lemma event_of_untouched u a ev : url a <> u -> event_of a ev -> untouched u ev.
Proof.
  intros Hne. destruct ev; simpl; auto.
  - intros ->. exact Hne.
  - intros (_ & _ & H). congruence.
  - intros (_ & _ & H). congruence.
Qed.

(** Claim C1.  When [main] turns to a feed, a URL among the URLs the
    store returns for the feed's outlet (those of its newest rows by
    id, a thousand at most, all of them when the outlet has fewer) is
    dropped by the filter: no article with that URL is left in the
    filtered list, and the log of the whole turn shows no text
    extraction, no call of the matcher and no call of the publish step
    for such an article. *)
Theorem dedup_filter (w : World) (feed : Feed) (s : St) (u : string) :
  In u (select_recent_urls (conn s) (feed_outlet feed)) ->
  Forall (untouched u) (evs (process_feed w feed s)) /\
  (forall articles,
     res (parse_feed w (feed_outlet feed) (feed_url feed) s) = Returned articles ->
     Forall (fun a => url a <> u)
            (not_recent (select_recent_urls (conn s) (feed_outlet feed)) articles)) /\
  (let sorted := order_by_id_desc (outlet_rows (feed_outlet feed) (visible (conn s))) in
   select_recent_urls (conn s) (feed_outlet feed) = map row_url (firstn 1000 sorted) /\
   Permutation sorted (outlet_rows (feed_outlet feed) (visible (conn s))) /\
   StronglySorted newer_first sorted /\
   List.length (select_recent_urls (conn s) (feed_outlet feed))
   = Nat.min (List.length (outlet_rows (feed_outlet feed) (visible (conn s)))) 1000).
Proof.
  intros Hin.
  assert (Hkept : forall articles,
             Forall (fun a => url a <> u)
                    (not_recent (select_recent_urls (conn s) (feed_outlet feed)) articles)).
  { intros articles. apply Forall_forall. intros a Ha.
    apply not_recent_spec in Ha as [_ Hnot]. intros Heq. apply Hnot. now rewrite Heq. }
  split; [|split; [intros articles _; apply Hkept|apply select_recent_urls_spec]].
  rewrite process_feed_run. cbv zeta.
  pose proof (parse_feed_feed_event w (feed_outlet feed) (feed_url feed) s) as Hpf.
  destruct (res (parse_feed w (feed_outlet feed) (feed_url feed) s)) as [articles|e];
    cbn [evs]; [|now apply feed_event_untouched].
  apply Forall_app. split; [now apply feed_event_untouched|].
  specialize (Hkept articles). rewrite Forall_forall in Hkept.
  generalize (process_articles_event_of w
                (not_recent (select_recent_urls (conn s) (feed_outlet feed)) articles)
                1 (List.length (not_recent (select_recent_urls (conn s) (feed_outlet feed))
                                  articles)) s).
  apply Forall_impl. intros ev (a & Ha & Hev).
  apply (event_of_untouched u a); auto.
Qed.

Lemma dedup_filter_witness :
  In "http://example.com/b"
     (select_recent_urls (conn Sample.start) (feed_outlet Sample.feed)) /\
  Forall (untouched "http://example.com/b")
         (evs (process_feed Sample.world Sample.feed Sample.start)).
Proof.
  assert (H : In "http://example.com/b"
                 (select_recent_urls (conn Sample.start) (feed_outlet Sample.feed))).
  { simpl. now left. }
  split; [exact H|].
  exact (proj1 (dedup_filter Sample.world Sample.feed Sample.start
                  "http://example.com/b" H)).
Defined.

(** ** The log of the whole run *)

Lemma get_twitter_instance_quiet w s : evs (get_twitter_instance w s) = [].
Proof.
  unfold get_twitter_instance, bind, outcome. simpl.
  repeat match goal with
         | |- context [getitem ?d ?k] => destruct (getitem d k); simpl
         end; reflexivity.
Qed.

Lemma well_posted_nil : well_posted [].
Proof. intros ? ? []. Qed.

Lemma process_feed_well_posted w feed s : well_posted (evs (process_feed w feed s)).
Proof.
  rewrite process_feed_run. cbv zeta.
  pose proof (parse_feed_feed_event w (feed_outlet feed) (feed_url feed) s) as Hpf.
  apply feed_event_quiet, well_posted_quiet in Hpf.
  destruct (res (parse_feed w (feed_outlet feed) (feed_url feed) s)); cbn [evs]; [|exact Hpf].
  apply well_posted_app; [exact Hpf|apply process_articles_well_posted].
Qed.

Lemma process_feeds_well_posted w feeds : forall s, well_posted (evs (process_feeds w feeds s)).
Proof.
  induction feeds as [|feed rest IH]; intros s; simpl; [apply well_posted_nil|].
  apply bind_evs_closed; [apply well_posted_app|apply process_feed_well_posted|].
  intros _ _. apply IH.
Qed.

Lemma main_well_posted w s : well_posted (evs (main w s)).
Proof.
  unfold main.
  apply bind_evs_closed; [apply well_posted_app|apply well_posted_nil|]. intros db _.
  apply bind_evs_closed; [apply well_posted_app| |].
  - rewrite get_twitter_instance_quiet. apply well_posted_nil.
  - intros _ _. apply process_feeds_well_posted.
Qed.

(** Claim C9.  Every status that [tweet] posts for an article is the
    outlet, a colon and a space, the title, a space and the URL of that
    article; when [tweet] returns it has posted exactly that one status;
    in a whole run every posted status is this line for an article the
    run called [tweet] on; and for the outlet AP, the title "City denies
    records request" and the URL http://example.com/a the line is "AP:
    City denies records request http://example.com/a". *)
Theorem status_text_format (w : World) (s : St) :
  (forall self,
     Forall (fun p => fst p = (outlet self ++ ": " ++ title self ++ " " ++ url self)%string)
            (posted (evs (tweet w self s))) /\
     forall self', res (tweet w self s) = Returned self' ->
       map fst (posted (evs (tweet w self s)))
       = [(outlet self ++ ": " ++ title self ++ " " ++ url self)%string]) /\
  Forall (fun p => exists a, In (EvTweet a) (evs (main w s)) /\
                   fst p = (outlet a ++ ": " ++ title a ++ " " ++ url a)%string)
         (posted (evs (main w s))) /\
  (forall grafs images flag,
     Forall (fun p => fst p = "AP: City denies records request http://example.com/a")
            (posted (evs (tweet w {| outlet := "AP";
                                     title := "City denies records request";
                                     url := "http://example.com/a";
                                     matching_grafs := grafs; imgs := images;
                                     tweeted := flag |} s)))).
Proof.
  assert (Htweet : forall self,
             Forall (fun p => fst p = status_text self) (posted (evs (tweet w self s)))).
  { intros self. destruct (tweet_posted w self s) as [-> | ->]; repeat constructor. }
  split; [|split].
  - intros self. split; [apply Htweet|].
    intros self' H. now rewrite (tweet_posted_returned _ _ _ _ H).
  - apply Forall_forall. intros [status mids] Hin. apply in_posted in Hin.
    destruct (main_well_posted w s _ _ Hin) as (_ & a & Ha & ->). now exists a.
  - intros grafs images flag.
    exact (Htweet {| outlet := "AP"; title := "City denies records request";
                     url := "http://example.com/a"; matching_grafs := grafs;
                     imgs := images; tweeted := flag |}).
Qed.

(** Claim C10.  After a successful upload the body of the [try] looks
    up [self.media_ids], which raises [AttributeError]; the handler
    swallows it, so the upload loop returns the local list as it got it,
    whatever the uploads answer; [tweet] therefore posts every status
    with an empty list of media ids, and so does every post of a whole
    run. *)
Theorem posts_carry_no_media (w : World) (s : St) :
  (forall self img media_id,
     twitter_upload_media w img = Returned media_id ->
     res (upload_one w self img s) = Raised (AttributeError "media_ids")) /\
  (forall self images media_ids,
     res (upload_loop w self images media_ids s) = Returned media_ids /\
     uploaded (evs (upload_loop w self images media_ids s)) = images) /\
  (forall self, Forall (fun p => snd p = []) (posted (evs (tweet w self s)))) /\
  Forall (fun p => snd p = []) (posted (evs (main w s))).
Proof.
  split; [|split; [|split]].
  - intros self img media_id H.
    unfold upload_one, getattr_media_ids, bind, log, outcome, raise. simpl.
    now rewrite H.
  - intros self images media_ids. rewrite upload_loop_run. simpl.
    split; [reflexivity|apply uploaded_uploads].
  - intros self. destruct (tweet_posted w self s) as [-> | ->]; repeat constructor.
  - apply Forall_forall. intros [status mids] Hin. apply in_posted in Hin.
    now destruct (main_well_posted w s _ _ Hin) as (-> & _).
Qed.

Example sample_run_uploads_but_attaches_nothing :
  let o := main Sample.world Sample.start in
  res o = Returned tt /\
  List.length (uploaded (evs o)) = 3 /\
  posted (evs o)
  = [ ("Example: City denies records request http://example.com/a", []);
      ("Example: Council sued under public records law http://example.com/c", []) ].
Proof. repeat split. Qed.

(** ** Rows written by the inner loop *)

Lemma tweet_no_insert w self s : Forall no_insert (evs (tweet w self s)).
Proof.
  destruct (tweet_events w self s) as (rest & -> & Hrest).
  constructor; [intros r; discriminate|].
  revert Hrest. apply Forall_impl.
  intros ev [(g & width & ->)|[(img & ->)| ->]] r; discriminate.
Qed.

Lemma tweet_if_matching_no_insert w a s :
  Forall no_insert (evs (tweet_if_matching w a s)).
Proof.
  unfold tweet_if_matching. destruct (matching_grafs a); [constructor|].
  rewrite (bind_returned (log _) _ s tt eq_refl). cbn [log res st evs app].
  constructor; [intros r; discriminate|apply tweet_no_insert].
Qed.

(** One turn of the inner loop either raises, and then it has written
    nothing, or returns, and then it has written and committed the
    record of its article. *)
Lemma process_article_outcome w counter total a s :
  let o := process_article w counter total a s in
  (exists e, res o = Raised e /\ st o = s /\ Forall no_insert (evs o)) \/
  (exists r, res o = Returned tt /\ st o = after_record s r /\ records w r a /\
             row_id r = next_id (conn s)).
Proof.
  intros o. subst o. rewrite process_article_run. cbv zeta.
  assert (Hcm : Forall no_insert (EvPrintChecking (outlet a) counter total
                                    :: evs (check_for_matches w a s))).
  { rewrite check_for_matches_run. cbn [evs].
    repeat constructor; intros r; discriminate. }
  destruct (res (check_for_matches w a s)) as [a1|e] eqn:E1.
  - destruct (check_for_matches_returned _ _ _ _ E1)
      as (Hsame & _ & Htw & plaintext & Hfetch & Hgrafs).
    destruct (res (tweet_if_matching w a1 s)) as [a2|e] eqn:E2.
    + right. eexists. split; [reflexivity|]. split; [reflexivity|].
      destruct (tweet_if_matching_returned _ _ _ _ E2) as (Hsame2 & Htw2).
      destruct (same_article_trans _ _ _ Hsame Hsame2) as (Ho & Ht & Hu).
      split; [|reflexivity]. unfold records, recorded_row. cbn.
      repeat split; try congruence.
      exists plaintext. split; [exact Hfetch|].
      rewrite Htw2, Hgrafs, Htw. reflexivity.
    + left. exists e. split; [reflexivity|]. split; [reflexivity|]. cbn [evs].
      apply Forall_app. split; [exact Hcm|apply tweet_if_matching_no_insert].
  - left. exists e. split; [reflexivity|]. split; [reflexivity|exact Hcm].
Qed.

Lemma process_articles_rows w articles :
  forall counter total s,
    pending (conn s) = [] ->
    let o := process_articles w counter total articles s in
    exists k new,
      k <= List.length articles /\
      committed (conn (st o)) = committed (conn s) ++ new /\
      pending (conn (st o)) = [] /\
      Forall2 (records w) new (firstn k articles) /\
      (res o = Returned tt -> k = List.length articles) /\
      (forall e, res o = Raised e -> k < List.length articles).
Proof.
  induction articles as [|a rest IH]; intros counter total s Hpend o.
  - exists 0, []. subst o. simpl. rewrite app_nil_r.
    repeat split; auto. discriminate.
  - subst o. simpl process_articles.
    destruct (process_article_outcome w counter total a s)
      as [(e & Hres & Hst & _)|(r & Hres & Hst & Hrec & _)].
    + rewrite (bind_raised _ _ _ _ Hres). cbn [res st evs]. rewrite Hst.
      exists 0, []. rewrite app_nil_r. simpl.
      repeat split; auto; try lia. discriminate.
    + rewrite (bind_returned _ _ _ _ Hres). cbn [res st evs]. rewrite Hst.
      destruct (IH (S counter) total (after_record s r) eq_refl)
        as (k & new & Hk & Hc & Hp & Hall & Hret & Hraise).
      exists (S k), (r :: new). split; [simpl; lia|]. split.
      { rewrite Hc. unfold after_record, visible. cbn. rewrite Hpend, app_nil_r.
        now rewrite <- app_assoc. }
      split; [exact Hp|]. split; [simpl; now constructor|].
      split.
      * intros H. simpl. f_equal. now apply Hret.
      * intros e H. simpl. apply -> Nat.succ_lt_mono. now apply (Hraise e).
Qed.

(** ** Rows written by a run *)

Lemma process_feed_rows (w : World) (feed : Feed) (s : St) :
  pending (conn s) = [] ->
  let kept := surviving w feed s in
  let o := process_feed w feed s in
  exists k new,
    k <= List.length kept /\
    committed (conn (st o)) = committed (conn s) ++ new /\
    pending (conn (st o)) = [] /\
    Forall2 (records w) new (firstn k kept) /\
    (res o = Returned tt -> k = List.length kept).
Proof.
  intros Hpend kept o. subst kept o. unfold surviving.
  rewrite process_feed_run. cbv zeta.
  destruct (res (parse_feed w (feed_outlet feed) (feed_url feed) s)) as [articles|e].
  - cbn [res st evs].
    set (kept := not_recent (select_recent_urls (conn s) (feed_outlet feed)) articles).
    destruct (process_articles_rows w kept 1 (List.length kept) s Hpend)
      as (k & new & Hk & Hc & Hp & Hall & Hret & _).
    exists k, new. repeat (split; [assumption|]). exact Hret.
  - cbn [res st evs]. exists 0, []. rewrite app_nil_r. simpl.
    split; [lia|]. split; [reflexivity|]. split; [exact Hpend|].
    split; [constructor|]. discriminate.
Qed.





(** ** A refused status post *)

Lemma tweet_raises_when_post_fails w self s e :
  In (EvUpdateStatus (status_text self) []) (evs (tweet w self s)) ->
  twitter_update_status w (status_text self) [] = Raised e ->
  res (tweet w self s) = Raised e.
Proof.
  intros Hin Hpost.
  destruct (tweet_run w self s) as [_ [(k & e' & _ & _ & Hev)|(new_imgs & _ & _ & Hres)]].
  - exfalso. rewrite Hev in Hin. destruct Hin as [Hd|Hin]; [discriminate|].
    unfold render_events in Hin. apply in_map_iff in Hin as (g & Hd & _). discriminate.
  - destruct (res (tweet w self s)) as [self'|e'].
    + destruct Hres as (Hok & _). congruence.
    + congruence.
Qed.

Lemma raised_out_eta {A} (o : Out A) e :
  res o = Raised e -> {| res := Raised e; st := st o; evs := evs o |} = o.
Proof. destruct o; simpl; now intros ->. Qed.

(** Claim C4, amended.  When the status post of an article is refused,
    the exception leaves [tweet] and the loop: the turn of that article
    ends the batch with that exception, nothing has been written for the
    article (the store is as it was before its turn, so rows of earlier
    articles stay), and the articles after it are not looked at. *)
Theorem refused_post_ends_the_batch (w : World) (counter total : nat)
  (a a1 : Article) (rest : list Article) (s : St) (e : exn) :
  res (check_for_matches w a s) = Returned a1 ->
  matching_grafs a1 <> [] ->
  In (EvUpdateStatus (status_text a1) []) (evs (tweet w a1 s)) ->
  twitter_update_status w (status_text a1) [] = Raised e ->
  let o := process_articles w counter total (a :: rest) s in
  res o = Raised e /\
  st o = s /\
  Forall no_insert (evs o) /\
  o = process_article w counter total a s.
Proof.
  intros Hcm Hgrafs Hin Hpost o.
  pose proof (tweet_raises_when_post_fails w a1 s e Hin Hpost) as Htweet.
  assert (Ht : res (tweet_if_matching w a1 s) = Raised e).
  { unfold tweet_if_matching. destruct (matching_grafs a1); [congruence|].
    rewrite (bind_returned (log _) _ s tt eq_refl). exact Htweet. }
  assert (Hpa : res (process_article w counter total a s) = Raised e /\
                st (process_article w counter total a s) = s).
  { rewrite process_article_run. cbv zeta. rewrite Hcm, Ht. now split. }
  destruct Hpa as [Hres Hst].
  assert (Ho : o = process_article w counter total a s).
  { subst o. simpl process_articles. rewrite (bind_raised _ _ _ _ Hres).
    now apply raised_out_eta. }
  rewrite Ho. split; [exact Hres|]. split; [exact Hst|]. split; [|reflexivity].
  destruct (process_article_outcome w counter total a s)
    as [(e' & _ & _ & Hno)|(r & Hr & _)]; [exact Hno|congruence].
Qed.

Lemma refused_post_ends_the_batch_witness :
  let a := Sample.article "City denies records request" "http://example.com/a" in
  let c := Sample.article "Council sued under public records law" "http://example.com/c" in
  let o := process_articles Sample.world_post_fails 1 2 [a; c] Sample.start in
  res o = Raised (ExternalError "TwythonError") /\
  st o = Sample.start /\
  Forall no_insert (evs o) /\
  o = process_article Sample.world_post_fails 1 2 a Sample.start.
Proof.
  intros a c.
  apply (refused_post_ends_the_batch Sample.world_post_fails 1 2 a
           (set_matching_grafs a ["This mentions FOIA here."]) [c] Sample.start
           (ExternalError "TwythonError")).
  - reflexivity.
  - discriminate.
  - simpl. auto 10.
  - reflexivity.
Defined.

(** Claim C4 as the specification words it fails: the post of the first surviving
    article is refused; the run ends there, the article has no row, and
    the next article of the batch is never fetched. *)
Lemma refused_post_is_not_recorded :
  let o := main Sample.world_post_fails Sample.start in
  In (EvUpdateStatus "Example: City denies records request http://example.com/a" [])
     (evs o) /\
  res o = Raised (ExternalError "TwythonError") /\
  committed (conn (st o)) = [Sample.seen_row] /\
  ~ In (EvGet "http://example.com/c") (evs o).
Proof.
  split; [vm_compute; auto 20|]. split; [reflexivity|]. split; [reflexivity|].
  vm_compute. intuition discriminate.
Qed.

(** ** A page that cannot be turned into text *)

(** Claim C5, amended.  When the text of an article cannot be
    extracted (the download or the readability step raises), the
    exception leaves [check_for_matches] and the loop: the batch ends
    with that exception on the turn of that article, after the print,
    the call of the matcher and the download and nothing else; nothing
    is written for the article, the store is as it was before its turn,
    and the articles after it are not looked at. *)
Theorem failed_extraction_ends_the_batch (w : World) (counter total : nat)
  (a : Article) (rest : list Article) (s : St) (e : exn) :
  fetch_plaintext w a = Raised e ->
  process_articles w counter total (a :: rest) s
  = {| res := Raised e; st := s;
       evs := [EvPrintChecking (outlet a) counter total;
               EvCheckForMatches a; EvGet (url a)] |}.
Proof.
  intros Hfetch.
  assert (Hpa : process_article w counter total a s
                = {| res := Raised e; st := s;
                     evs := [EvPrintChecking (outlet a) counter total;
                             EvCheckForMatches a; EvGet (url a)] |}).
  { rewrite process_article_run. cbv zeta.
    rewrite check_for_matches_run. cbn [res st evs]. now rewrite Hfetch. }
  simpl process_articles. rewrite (bind_raised _ _ s e); now rewrite Hpa.
Qed.

Lemma failed_extraction_ends_the_batch_witness :
  let a := Sample.article "City denies records request" "http://example.com/a" in
  let c := Sample.article "Council sued under public records law" "http://example.com/c" in
  fetch_plaintext Sample.world_get_fails a = Raised (ExternalError "ConnectionError") /\
  process_articles Sample.world_get_fails 1 2 [a; c] Sample.start
  = {| res := Raised (ExternalError "ConnectionError"); st := Sample.start;
       evs := [EvPrintChecking "Example" 1 2; EvCheckForMatches a;
               EvGet "http://example.com/a"] |}.
Proof.
  intros a c. split; [reflexivity|].
  apply (failed_extraction_ends_the_batch Sample.world_get_fails 1 2 a [c]
           Sample.start (ExternalError "ConnectionError")).
  reflexivity.
Defined.

(** Claim C5 as the specification words it fails: the page of the first surviving
    article cannot be fetched; the run ends there, the article has no
    row, and the next article of the batch is never fetched. *)
Lemma failed_extraction_is_not_recorded :
  let o := main Sample.world_get_fails Sample.start in
  In (EvGet "http://example.com/a") (evs o) /\
  res o = Raised (ExternalError "ConnectionError") /\
  committed (conn (st o)) = [Sample.seen_row] /\
  ~ In (EvGet "http://example.com/c") (evs o).
Proof.
  split; [vm_compute; auto 20|]. split; [reflexivity|]. split; [reflexivity|].
  vm_compute. intuition discriminate.
Qed.

(** ** Feed entries without a title or a link *)

Lemma getitem_without_key d key :
  has_key d key = false -> getitem d key = Raised (KeyError key).
Proof.
  induction d as [|[k v] d IH]; simpl; [reflexivity|].
  intros H. apply orb_false_iff in H as [Hk Hd]. rewrite Hk. now apply IH.
Qed.

Lemma parse_entries_malformed w o entries :
  existsb malformed entries = true ->
  forall articles s, exists e, res (parse_entries w o entries articles s) = Raised e.
Proof.
  induction entries as [|entry rest IH]; cbn [existsb parse_entries]; [discriminate|].
  intros H articles s.
  destruct (getitem entry "title") as [t|e] eqn:Et.
  2:{ exists e. reflexivity. }
  rewrite (bind_returned (outcome (Returned t)) _ s t eq_refl).
  cbn [res st evs outcome].
  destruct (getitem entry "link") as [u|e] eqn:Eu.
  2:{ exists e. reflexivity. }
  rewrite (bind_returned (outcome (Returned u)) _ s u eq_refl).
  cbn [res st evs outcome].
  assert (Hrest : existsb malformed rest = true).
  { apply orb_true_iff in H as [H|H]; [|exact H]. exfalso.
    unfold malformed in H. apply orb_true_iff in H as [H|H];
      apply negb_true_iff, getitem_without_key in H; congruence. }
  destruct (res (Article_init w o t u s)) as [article|e] eqn:Ea.
  - rewrite (bind_returned _ _ _ _ Ea). cbn [res].
    apply (IH Hrest).
  - exists e. now rewrite (bind_raised _ _ _ _ Ea).
Qed.

Lemma getitem_cases d key :
  (has_key d key = true /\ exists v, getitem d key = Returned v) \/
  (has_key d key = false /\ getitem d key = Raised (KeyError key)).
Proof.
  destruct (has_key d key) eqn:E.
  - left. split; [reflexivity|].
    induction d as [|[k v] d IH]; simpl in *; [discriminate|].
    destruct (String.eqb k key); [now exists v|]. now apply IH.
  - right. split; [reflexivity|now apply getitem_without_key].
Qed.

Lemma Article_init_run w o t u s :
  Article_init w o t u s
  = {| res := match res (canonicalize_url w o u s) with
              | Returned c => Returned {| outlet := o; title := t; url := c;
                                          matching_grafs := []; imgs := [];
                                          tweeted := false |}
              | Raised e => Raised e
              end;
       st := s;
       evs := evs (canonicalize_url w o u s) |}.
Proof.
  unfold Article_init.
  pose proof (pure_state_canonicalize_url w o u s) as Hst.
  destruct (res (canonicalize_url w o u s)) as [c|e] eqn:E.
  - rewrite (bind_returned _ _ _ _ E), Hst. cbn. now rewrite app_nil_r.
  - rewrite (bind_raised _ _ _ _ E), Hst. reflexivity.
Qed.

Lemma malformed_split (entries : list pydict) :
  existsb malformed entries = true ->
  exists good bad rest,
    entries = good ++ bad :: rest /\
    existsb malformed good = false /\ malformed bad = true.
Proof.
  induction entries as [|entry entries IH]; cbn [existsb]; [discriminate|].
  destruct (malformed entry) eqn:E.
  - intros _. exists [], entry, entries. now repeat split.
  - intros H. destruct (IH H) as (good & bad & rest & -> & Hg & Hb).
    exists (entry :: good), bad, rest. cbn [existsb]. rewrite E. now repeat split.
Qed.

Lemma canonicalize_url_raised w o u s e :
  res (canonicalize_url w o u s) = Raised e <->
  str_in o ["ProPublica"; "Reuters"] = true /\ requests_head w u = Raised e.
Proof.
  destruct (str_in o ["ProPublica"; "Reuters"]) eqn:E.
  - rewrite (canonicalize_url_resolving _ _ _ _ E). cbn [res].
    destruct (requests_head w u) as [r|e0]; split.
    + discriminate.
    + intros [_ H]. discriminate.
    + intros H. injection H as ->. now split.
    + intros [_ H]. injection H as ->. reflexivity.
  - rewrite (canonicalize_url_direct _ _ _ _ E). cbn [res].
    split; [discriminate|]. intros [H _]. discriminate.
Qed.

(** The exception of [parse_entries] on a list whose first malformed
    entry is [bad]: the [KeyError] of the key [bad] lacks, unless the
    lookup of the link of an entry before it raised. *)
Lemma parse_entries_first_malformed w o s good bad rest :
  existsb malformed good = false -> malformed bad = true ->
  forall acc, exists e,
    res (parse_entries w o (good ++ bad :: rest) acc s) = Raised e /\
    (e = KeyError (missing_key bad) \/
     exists entry link,
       In entry good /\ getitem entry "link" = Returned link /\
       str_in o ["ProPublica"; "Reuters"] = true /\ requests_head w link = Raised e) /\
    ((forall entry link,
        In entry good -> getitem entry "link" = Returned link ->
        exists r, requests_head w link = Returned r) ->
     e = KeyError (missing_key bad)).
Proof.
  induction good as [|entry good IH]; intros Hgood Hbad acc.
  - cbn [app parse_entries]. unfold malformed in Hbad. unfold missing_key.
    destruct (getitem_cases bad "title") as [[Ht [t Et]]|[Ht Et]]; rewrite Ht in *.
    + destruct (getitem_cases bad "link") as [[Hl _]|[Hl El]];
        [rewrite Hl in Hbad; discriminate|].
      exists (KeyError "link").
      rewrite (bind_returned (outcome (getitem bad "title")) _ s t Et).
      cbn [res st evs outcome].
      rewrite (bind_raised (outcome (getitem bad "link")) _ s _ El).
      split; [reflexivity|]. split; [now left|reflexivity].
    + exists (KeyError "title").
      rewrite (bind_raised (outcome (getitem bad "title")) _ s _ Et).
      split; [reflexivity|]. split; [now left|reflexivity].
  - cbn [existsb] in Hgood. apply orb_false_iff in Hgood as [He Hgood].
    unfold malformed in He. apply orb_false_iff in He as [Ht Hl].
    apply negb_false_iff in Ht, Hl.
    destruct (getitem_cases entry "title") as [[_ [t Et]]|[Ht' _]]; [|congruence].
    destruct (getitem_cases entry "link") as [[_ [u Eu]]|[Hl' _]]; [|congruence].
    cbn [app parse_entries].
    rewrite (bind_returned (outcome (getitem entry "title")) _ s t Et).
    cbn [res st evs outcome].
    rewrite (bind_returned (outcome (getitem entry "link")) _ s u Eu).
    cbn [res st evs outcome].
    destruct (res (Article_init w o t u s)) as [a|e] eqn:Ea.
    + rewrite (bind_returned _ _ _ _ Ea), (pure_state_Article_init w o t u s). cbn [res].
      destruct (IH Hgood Hbad (acc ++ [a])) as (e & He' & Hor & Hall).
      exists e. split; [exact He'|]. split.
      * destruct Hor as [Hk|(entry' & link & Hin & Hg & Hs & Hh)]; [now left|].
        right. exists entry', link. split; [now right|]. now repeat split.
      * intros H. apply Hall. intros entry' link Hin. apply H. now right.
    + rewrite (bind_raised _ _ _ _ Ea). cbn [res]. exists e.
      rewrite Article_init_run in Ea. cbn [res] in Ea.
      destruct (res (canonicalize_url w o u s)) as [c|e'] eqn:Ec; [discriminate|].
      injection Ea as ->. apply canonicalize_url_raised in Ec as [Hs Hh].
      split; [reflexivity|]. split.
      * right. exists entry, u. split; [now left|]. now repeat split.
      * intros H. destruct (H entry u (or_introl eq_refl) Eu) as (r & Hr). congruence.
Qed.

(** Claim C6, amended.  An entry of a feed that lacks a title or a link
    is not skipped: [parse_feed] raises, and the turn of that feed ends
    there with the same exception, with nothing written and no article
    of the feed extracted, matched or published.  The exception is the
    [KeyError] of the key the first such entry lacks (the title when it
    is missing, else the link), unless the redirect lookup of an entry
    before it raised first, for ProPublica or Reuters, and then it is
    the exception of that lookup. *)
Theorem malformed_entry_ends_the_feed (w : World) (feed : Feed) (s : St)
  (entries : list pydict) :
  feedparser_parse w (feed_url feed) = Returned entries ->
  existsb malformed entries = true ->
  let o := process_feed w feed s in
  exists good bad rest e,
    entries = good ++ bad :: rest /\
    existsb malformed good = false /\ malformed bad = true /\
    res (parse_feed w (feed_outlet feed) (feed_url feed) s) = Raised e /\
    res o = Raised e /\
    st o = s /\
    Forall feed_event (evs o) /\
    (e = KeyError (missing_key bad) \/
     exists entry link,
       In entry good /\ getitem entry "link" = Returned link /\
       str_in (feed_outlet feed) ["ProPublica"; "Reuters"] = true /\
       requests_head w link = Raised e) /\
    (str_in (feed_outlet feed) ["ProPublica"; "Reuters"] = false ->
     e = KeyError (missing_key bad)) /\
    ((forall entry link,
        In entry good -> getitem entry "link" = Returned link ->
        exists r, requests_head w link = Returned r) ->
     e = KeyError (missing_key bad)).
Proof.
  intros Hfeed Hmal o.
  destruct (malformed_split entries Hmal) as (good & bad & rest & Hsplit & Hgood & Hbad).
  destruct (parse_entries_first_malformed w (feed_outlet feed) s good bad rest
              Hgood Hbad []) as (e & He & Hor & Hall).
  assert (Hpf : res (parse_feed w (feed_outlet feed) (feed_url feed) s) = Raised e).
  { unfold parse_feed.
    rewrite (bind_returned (log _) _ s tt eq_refl). cbn [log res st evs].
    rewrite (bind_returned (outcome (feedparser_parse w (feed_url feed))) _ s entries)
      by exact Hfeed.
    cbn [res st evs outcome]. now rewrite Hsplit. }
  exists good, bad, rest, e. subst o. rewrite process_feed_run. cbv zeta. rewrite Hpf.
  cbn [res st evs].
  repeat (split; [first [assumption | reflexivity]|]).
  split; [apply parse_feed_feed_event|]. split; [exact Hor|]. split; [|exact Hall].
  intros Hdirect. destruct Hor as [Hk|(entry & link & _ & _ & Hs & _)]; [exact Hk|].
  congruence.
Qed.

Lemma malformed_entry_ends_the_feed_witness :
  let o := process_feed Sample.world_entry_without_title Sample.feed Sample.start in
  feedparser_parse Sample.world_entry_without_title (feed_url Sample.feed)
  = Returned [ Sample.entry "City denies records request" "http://example.com/a";
               [("link", "http://example.com/b")];
               Sample.entry "Weather" "http://example.com/c" ] /\
  res o = Raised (KeyError "title") /\
  st o = Sample.start /\
  Forall feed_event (evs o).
Proof.
  intros o. split; [reflexivity|].
  destruct (malformed_entry_ends_the_feed Sample.world_entry_without_title Sample.feed
              Sample.start
              [ Sample.entry "City denies records request" "http://example.com/a";
                [("link", "http://example.com/b")];
                Sample.entry "Weather" "http://example.com/c" ]
              eq_refl eq_refl)
    as (good & bad & rest & e & _ & _ & _ & _ & Hres & Hst & Hev & _).
  split; [reflexivity|]. split; [exact Hst|exact Hev].
Defined.

(** The exception of an earlier lookup comes first: in a Reuters feed
    whose first link cannot be resolved, the second entry's missing
    title is never read. *)
Example earlier_lookup_failure_comes_first :
  res (main Sample.world_lookup_fails Sample.start)
  = Raised (ExternalError "ConnectionError").
Proof. reflexivity. Qed.

(** Claim C6 as the specification words it fails: the second entry of the feed has
    no title; the first and the third, which are well formed, are not
    processed either, and the run ends with the [KeyError]. *)
Lemma entry_without_title_is_not_skipped :
  let o := main Sample.world_entry_without_title Sample.start in
  res o = Raised (KeyError "title") /\
  evs o = [EvParseFeed "http://example.com/rss"] /\
  committed (conn (st o)) = [Sample.seen_row].
Proof. repeat split. Qed.

(** * Further properties of the script *)

(** ** What [decruft_url] cuts off *)

Lemma split_first_cut (sep : ascii) (s : string) :
  exists rest, s = (PyStr.split_first sep s ++ rest)%string /\
               (rest = "" \/ exists tail, rest = String sep tail).
Proof.
  unfold PyStr.split_first. induction s as [|c s' IH]; simpl.
  - exists "". split; [reflexivity|now left].
  - destruct (Ascii.eqb_spec c sep) as [->|Hne].
    + exists (String sep s'). split; [reflexivity|]. right. now exists s'.
    + destruct IH as (rest & Hs & Hrest).
      pose proof (PyStrFacts.split_not_nil sep s') as Hnn.
      destruct (PyStr.split sep s') as [|p ps]; [congruence|].
      simpl in *. exists rest. split; [now rewrite <- Hs|exact Hrest].
Qed.

Lemma string_app_assoc (a b c : string) : ((a ++ b) ++ c = a ++ (b ++ c))%string.
Proof. induction a as [|x a IH]; simpl; [reflexivity|now rewrite IH]. Qed.

(** [decruft_url] returns the part of the URL before its first [?] or
    [#]: the result holds neither character, and what it cut off is
    empty or begins with one of them. *)
Theorem decruft_url_cuts_at_first_mark (u : string) :
  PyStr.has_char "?" (decruft_url u) = false /\
  PyStr.has_char "#" (decruft_url u) = false /\
  exists rest, u = (decruft_url u ++ rest)%string /\ cruft rest.
Proof.
  destruct (decruft_url_clean u) as [Hq Hh]. split; [exact Hq|]. split; [exact Hh|].
  unfold decruft_url.
  destruct (split_first_cut "?" u) as (r1 & Hu & Hr1).
  destruct (split_first_cut "#" (PyStr.split_first "?" u)) as (r2 & Hp & Hr2).
  exists (r2 ++ r1)%string. split.
  - rewrite <- string_app_assoc, <- Hp. exact Hu.
  - destruct Hr2 as [->|(tail & ->)].
    + simpl. destruct Hr1 as [->|(tail & ->)]; [now left|].
      right. exists "?"%char, tail. split; [reflexivity|now left].
    + right. exists "#"%char, (tail ++ r1)%string. split; [reflexivity|now right].
Qed.

(** ** Which paragraphs match *)

Lemma lower_app (a b : string) :
  PyStr.lower (a ++ b) = (PyStr.lower a ++ PyStr.lower b)%string.
Proof. induction a as [|c a IH]; simpl; [reflexivity|now rewrite IH]. Qed.

Lemma lower_length (s : string) : String.length (PyStr.lower s) = String.length s.
Proof. induction s as [|c s IH]; simpl; [reflexivity|now rewrite IH]. Qed.

Lemma lower_char_idempotent (c : ascii) :
  PyStr.lower_char (PyStr.lower_char c) = PyStr.lower_char c.
Proof. destruct c as [[] [] [] [] [] [] [] []]; reflexivity. Qed.

Lemma lower_idempotent (s : string) : PyStr.lower (PyStr.lower s) = PyStr.lower s.
Proof.
  induction s as [|c s IH]; simpl; [reflexivity|].
  now rewrite lower_char_idempotent, IH.
Qed.

Lemma string_app_length (a b : string) :
  String.length (a ++ b) = String.length a + String.length b.
Proof. induction a as [|c a IH]; simpl; [reflexivity|now rewrite IH]. Qed.

Lemma Substring_length (p s : string) :
  PyStr.Substring p s -> String.length p <= String.length s.
Proof.
  intros (pre & post & ->). rewrite !string_app_length. lia.
Qed.

Lemma Substring_embed (p s pre post : string) :
  PyStr.Substring p s -> PyStr.Substring p (pre ++ s ++ post).
Proof.
  intros (a & b & ->). exists (pre ++ a)%string, (b ++ post)%string.
  now rewrite !string_app_assoc.
Qed.

Lemma FOIA_PHRASES_length : Forall (fun phrase => 4 <= String.length phrase) FOIA_PHRASES.
Proof. repeat constructor. Qed.

Lemma is_continuation_lower_char (c : ascii) :
  is_continuation (PyStr.lower_char c) = is_continuation c.
Proof. destruct c as [[] [] [] [] [] [] [] []]; reflexivity. Qed.

Lemma char_count_lower (s : string) : char_count (PyStr.lower s) = char_count s.
Proof.
  induction s as [|c s IH]; simpl; [reflexivity|].
  now rewrite is_continuation_lower_char, IH.
Qed.

Lemma char_count_app (a b : string) :
  char_count (a ++ b) = char_count a + char_count b.
Proof. induction a as [|c a IH]; simpl; [reflexivity|]. rewrite IH. lia. Qed.

Lemma FOIA_PHRASES_char_count : Forall (fun phrase => 4 <= char_count phrase) FOIA_PHRASES.
Proof. repeat constructor. Qed.

(** A paragraph that holds a matching paragraph matches; a paragraph
    of fewer than four characters never matches, however many bytes its
    characters take; and whether a paragraph matches depends on its
    lowercase form only. *)
Theorem graf_matches_robust (pre g post : string) :
  (graf_matches g = true -> graf_matches (pre ++ g ++ post) = true) /\
  (char_count g < 4 -> graf_matches g = false) /\
  graf_matches (PyStr.lower g) = graf_matches g.
Proof.
  split; [|split].
  - rewrite !graf_matches_spec. intros (phrase & Hin & Hsub).
    exists phrase. split; [exact Hin|].
    rewrite !lower_app. now apply Substring_embed.
  - intros Hlen. destruct (graf_matches g) eqn:E; [|reflexivity].
    apply graf_matches_spec in E as (phrase & Hin & (a & b & Hsub)).
    pose proof FOIA_PHRASES_char_count as Hl. rewrite Forall_forall in Hl.
    specialize (Hl _ Hin).
    rewrite <- char_count_lower, Hsub, !char_count_app in Hlen. lia.
  - unfold graf_matches. now rewrite lower_idempotent.
Qed.

(** ** [check_for_matches] adds to what the article holds *)

(** When [check_for_matches] returns, the article's list of matching
    paragraphs is the list it held before followed by the matching
    paragraphs of the text just downloaded, and nothing else about the
    article or the state has changed; the list is never emptied, so a
    second call that returns, whatever the download answers then, adds
    the matching paragraphs of the text it gets after those of the
    first. *)
Theorem check_for_matches_accumulates (w w' : World) (a a1 a2 : Article) (s s' : St) :
  res (check_for_matches w a s) = Returned a1 ->
  res (check_for_matches w' a1 s') = Returned a2 ->
  exists text text',
    let found := filter graf_matches (PyStr.split newline text) in
    let found' := filter graf_matches (PyStr.split newline text') in
    fetch_plaintext w a = Returned text /\
    fetch_plaintext w' a1 = Returned text' /\
    matching_grafs a1 = matching_grafs a ++ found /\
    matching_grafs a2 = matching_grafs a ++ found ++ found' /\
    outlet a1 = outlet a /\ title a1 = title a /\ url a1 = url a /\
    imgs a1 = imgs a /\ tweeted a1 = tweeted a /\
    outlet a2 = outlet a /\ title a2 = title a /\ url a2 = url a /\
    imgs a2 = imgs a /\ tweeted a2 = tweeted a /\
    st (check_for_matches w a s) = s /\
    st (check_for_matches w' a1 s') = s'.
Proof.
  intros H1 H2.
  destruct (check_for_matches_returned _ _ _ _ H1)
    as ((Ho & Ht & Hu) & Hi & Htw & text & Hfetch & Hgrafs).
  destruct (check_for_matches_returned _ _ _ _ H2)
    as ((Ho' & Ht' & Hu') & Hi' & Htw' & text' & Hfetch' & Hgrafs').
  exists text, text'. cbv zeta.
  unfold find_matches in Hgrafs, Hgrafs'. rewrite scan_grafs_filter in Hgrafs, Hgrafs'.
  split; [exact Hfetch|]. split; [exact Hfetch'|]. split; [exact Hgrafs|].
  split; [now rewrite Hgrafs', Hgrafs, <- app_assoc|].
  repeat (split; [congruence|]).
  split; apply pure_state_check_for_matches.
Qed.

Lemma check_for_matches_accumulates_witness :
  let a := Sample.article "City denies records request" "http://example.com/a" in
  let a1 := set_matching_grafs a ["This mentions FOIA here."] in
  let a2 := set_matching_grafs a
              ["This mentions FOIA here."; "The suit cites the Public Records Law.";
               "An open records request went unanswered."] in
  res (check_for_matches Sample.world a Sample.start) = Returned a1 /\
  res (check_for_matches (world_reading "http://example.com/c") a1 Sample.start)
  = Returned a2 /\
  exists found found', matching_grafs a2 = matching_grafs a ++ found ++ found'.
Proof.
  intros a a1 a2.
  assert (H1 : res (check_for_matches Sample.world a Sample.start) = Returned a1)
    by reflexivity.
  assert (H2 : res (check_for_matches (world_reading "http://example.com/c") a1
                      Sample.start) = Returned a2) by reflexivity.
  split; [exact H1|]. split; [exact H2|].
  destruct (check_for_matches_accumulates Sample.world
              (world_reading "http://example.com/c") a a1 a2 Sample.start Sample.start
              H1 H2) as (text & text' & _ & _ & _ & Hg & _).
  eexists. eexists. exact Hg.
Defined.

(** ** What [canonicalize_url] returns and asks *)

Lemma str_in_AP o : str_in o ["AP"] = String.eqb o "AP".
Proof. unfold str_in. simpl. apply orb_false_r. Qed.

(** When [canonicalize_url] returns, the state is as before; for AP the
    URL is returned as it came, with no lookup; for every other outlet
    the result holds no [?] and no [#]; a HEAD request is made, once and
    for the raw URL, exactly for ProPublica and Reuters, whose result is
    the stripped target of that request. *)
Theorem canonicalize_url_outcome (w : World) (o u c : string) (s : St) :
  res (canonicalize_url w o u s) = Returned c ->
  st (canonicalize_url w o u s) = s /\
  (o = "AP" -> c = u /\ evs (canonicalize_url w o u s) = []) /\
  (o <> "AP" -> PyStr.has_char "?" c = false /\ PyStr.has_char "#" c = false) /\
  (str_in o ["ProPublica"; "Reuters"] = false ->
     evs (canonicalize_url w o u s) = [] /\ (o <> "AP" -> c = decruft_url u)) /\
  (str_in o ["ProPublica"; "Reuters"] = true ->
     evs (canonicalize_url w o u s) = [EvHead u] /\
     exists r, requests_head w u = Returned r /\ c = decruft_url (redirect_target r)).
Proof.
  intros H. split; [apply pure_state_canonicalize_url|].
  destruct (str_in o ["ProPublica"; "Reuters"]) eqn:E.
  - rewrite (canonicalize_url_resolving w o u s E) in *. cbn [res evs] in *.
    destruct (requests_head w u) as [r|e]; [|discriminate]. injection H as <-.
    split; [|split; [|split]].
    + intros ->. discriminate.
    + intros _. apply decruft_url_clean.
    + discriminate.
    + intros _. split; [reflexivity|]. now exists r.
  - rewrite (canonicalize_url_direct w o u s E) in *. cbn [res evs] in *.
    rewrite str_in_AP in H.
    split; [|split; [|split]].
    + intros ->. simpl in H. injection H as <-. now split.
    + intros Hne. apply String.eqb_neq in Hne. rewrite Hne in H. simpl in H.
      injection H as <-. apply decruft_url_clean.
    + intros _. split; [reflexivity|]. intros Hne.
      apply String.eqb_neq in Hne. rewrite Hne in H. simpl in H. now injection H.
    + discriminate.
Qed.

Lemma canonicalize_url_outcome_witness :
  res (canonicalize_url Sample.world_redirects "Reuters" "http://feeds.example.com/r/7"
         Sample.start) = Returned "http://example.com/story" /\
  evs (canonicalize_url Sample.world_redirects "Reuters" "http://feeds.example.com/r/7"
         Sample.start) = [EvHead "http://feeds.example.com/r/7"].
Proof.
  split; [reflexivity|].
  exact (proj1 (proj2 (proj2 (proj2 (proj2
    (canonicalize_url_outcome Sample.world_redirects "Reuters"
       "http://feeds.example.com/r/7" "http://example.com/story" Sample.start
       eq_refl)))) eq_refl)).
Defined.

(** ** The configuration keys *)


(** [get_twitter_instance] returns exactly when the configuration has
    the four Twitter keys, with their four values; otherwise it raises
    [KeyError] for the first key that is missing; it logs nothing and
    leaves the state alone. *)
Theorem get_twitter_instance_keys (w : World) (s : St) :
  match first_missing (CONFIG w) twitter_keys with
  | Some key =>
      get_twitter_instance w s = {| res := Raised (KeyError key); st := s; evs := [] |}
  | None =>
      exists tw,
        get_twitter_instance w s = {| res := Returned tw; st := s; evs := [] |} /\
        getitem (CONFIG w) "twitter_app_key" = Returned (app_key tw) /\
        getitem (CONFIG w) "twitter_app_secret" = Returned (app_secret tw) /\
        getitem (CONFIG w) "twitter_oauth_token" = Returned (oauth_token tw) /\
        getitem (CONFIG w) "twitter_oauth_token_secret" = Returned (oauth_token_secret tw)
  end.
Proof.
  unfold first_missing, twitter_keys, get_twitter_instance, bind, outcome, ret.
  cbn [find].
  destruct (getitem_cases (CONFIG w) "twitter_app_key") as [[-> [v1 ->]]|[-> ->]];
    cbn; [|reflexivity].
  destruct (getitem_cases (CONFIG w) "twitter_app_secret") as [[-> [v2 ->]]|[-> ->]];
    cbn; [|reflexivity].
  destruct (getitem_cases (CONFIG w) "twitter_oauth_token") as [[-> [v3 ->]]|[-> ->]];
    cbn; [|reflexivity].
  destruct (getitem_cases (CONFIG w) "twitter_oauth_token_secret")
    as [[-> [v4 ->]]|[-> ->]]; cbn; [|reflexivity].
  eexists. split; [reflexivity|]. repeat split.
Qed.

Lemma out_eta {A} (o : Out A) : {| res := res o; st := st o; evs := evs o |} = o.
Proof. now destruct o. Qed.

(** [main] looks up the key [db] first and builds the Twitter client
    before it turns to the first feed: when [db] is missing the run
    raises [KeyError] for it, and when any of the five keys is missing
    the run raises with nothing logged, so before a feed is read and
    with no download, no post and no insert. *)
Theorem main_needs_its_configuration (w : World) (s : St) (key : string) :
  first_missing (CONFIG w) ("db" :: twitter_keys) = Some key ->
  (exists e, res (main w s) = Raised e) /\
  evs (main w s) = [] /\
  (has_key (CONFIG w) "db" = false -> res (main w s) = Raised (KeyError "db")).
Proof.
  intros Hmiss.
  pose proof (get_twitter_instance_keys w s) as Htw.
  unfold first_missing in *. cbn [find] in Hmiss. unfold main.
  destruct (getitem_cases (CONFIG w) "db") as [[Hdb [v Ev]]|[Hdb Ev]];
    rewrite Hdb in Hmiss; cbn [negb] in Hmiss.
  - rewrite (bind_returned (outcome (getitem (CONFIG w) "db")) _ s v Ev).
    cbn [res st evs outcome]. rewrite Hmiss in Htw.
    rewrite (bind_raised (get_twitter_instance w) _ s (KeyError key))
      by now rewrite Htw.
    rewrite Htw. cbn [res evs app].
    split; [now exists (KeyError key)|]. split; [reflexivity|]. congruence.
  - rewrite (bind_raised (outcome (getitem (CONFIG w) "db")) _ s _ Ev).
    cbn [res evs]. split; [now eexists|]. now split.
Qed.

Lemma main_needs_its_configuration_witness :
  first_missing (CONFIG world_without_token) ("db" :: twitter_keys)
  = Some "twitter_oauth_token" /\
  (exists e, res (main world_without_token Sample.start) = Raised e) /\
  evs (main world_without_token Sample.start) = [].
Proof.
  split; [reflexivity|].
  destruct (main_needs_its_configuration world_without_token Sample.start
              "twitter_oauth_token" eq_refl) as (He & Hev & _).
  split; [exact He|exact Hev].
Defined.

(** ** The articles of a feed *)


Lemma parse_entries_built w o s entries :
  forall acc articles,
    res (parse_entries w o entries acc s) = Returned articles ->
    exists news, articles = acc ++ news /\ Forall2 (built_from w o s) entries news.
Proof.
  induction entries as [|entry rest IH]; intros acc articles H.
  - injection H as <-. exists []. split; [now rewrite app_nil_r|constructor].
  - cbn [parse_entries] in H.
    destruct (getitem entry "title") as [t|e] eqn:Et; [|discriminate].
    rewrite (bind_returned (outcome (Returned t)) _ s t eq_refl) in H.
    cbn [res st evs outcome] in H.
    destruct (getitem entry "link") as [u|e] eqn:Eu; [|discriminate].
    rewrite (bind_returned (outcome (Returned u)) _ s u eq_refl) in H.
    cbn [res st evs outcome] in H.
    destruct (res (Article_init w o t u s)) as [a|e] eqn:Ea.
    2:{ rewrite (bind_raised _ _ _ _ Ea) in H. discriminate. }
    rewrite (bind_returned _ _ _ _ Ea) in H. cbn [res] in H.
    rewrite (pure_state_Article_init w o t u s) in H.
    destruct (IH _ _ H) as (news & -> & Hall).
    exists (a :: news). split; [now rewrite <- app_assoc|].
    constructor; [|exact Hall].
    rewrite Article_init_run in Ea. cbn [res] in Ea.
    destruct (res (canonicalize_url w o u s)) as [c|e] eqn:Ec; [|discriminate].
    injection Ea as <-. unfold built_from. cbn.
    split; [exact Et|]. split; [now exists u|]. repeat split.
Qed.

(** When [parse_feed] returns, it returns one article per entry of the
    feed, in the order of the feed: each with the entry's title, the
    canonical form of the entry's link, the outlet of the feed, and no
    paragraphs, no images and [tweeted] unset. *)
Theorem parse_feed_articles (w : World) (o u : string) (s : St)
  (entries : list pydict) (articles : list Article) :
  feedparser_parse w u = Returned entries ->
  res (parse_feed w o u s) = Returned articles ->
  Forall2 (built_from w o s) entries articles /\
  List.length articles = List.length entries.
Proof.
  intros Hfeed H. unfold parse_feed in H.
  rewrite (bind_returned (log _) _ s tt eq_refl) in H. cbn [log res st evs] in H.
  rewrite (bind_returned (outcome (feedparser_parse w u)) _ s entries Hfeed) in H.
  cbn [res st evs outcome] in H.
  destruct (parse_entries_built w o s entries [] articles H) as (news & -> & Hall).
  simpl. split; [exact Hall|]. symmetry. exact (Forall2_length Hall).
Qed.

Lemma parse_feed_articles_witness :
  feedparser_parse Sample.world "http://example.com/rss" = Returned Sample.entries /\
  exists articles,
    res (parse_feed Sample.world "Example" "http://example.com/rss" Sample.start)
    = Returned articles /\
    Forall2 (built_from Sample.world "Example" Sample.start) Sample.entries articles /\
    List.length articles = 3.
Proof.
  split; [reflexivity|]. eexists. split; [reflexivity|].
  exact (parse_feed_articles Sample.world "Example" "http://example.com/rss"
           Sample.start Sample.entries _ eq_refl eq_refl).
Defined.

(** ** The window of recent URLs *)

Lemma firstn_incl_In {A} (n : nat) (l : list A) (x : A) : In x (firstn n l) -> In x l.
Proof.
  revert l. induction n as [|n IH]; intros l; destruct l as [|y l]; simpl;
    try contradiction.
  intros [Hxy|H]; [now left|right; now apply IH].
Qed.

Lemma outlet_rows_In o rows r :
  In r (outlet_rows o rows) <-> In r rows /\ row_outlet r = o.
Proof.
  unfold outlet_rows. rewrite filter_In. now rewrite String.eqb_eq.
Qed.

(** The query returns URLs of rows of the asked outlet only, so a URL
    recorded under another outlet alone is not among them; and while the
    outlet has at most a thousand rows, it returns the URL of every one
    of them. *)
Theorem select_recent_urls_of_outlet (c : Conn) (o : string) :
  (forall u, In u (select_recent_urls c o) ->
     exists r, In r (visible c) /\ row_outlet r = o /\ row_url r = u) /\
  (List.length (outlet_rows o (visible c)) <= 1000 ->
   forall r, In r (visible c) -> row_outlet r = o ->
     In (row_url r) (select_recent_urls c o)).
Proof.
  unfold select_recent_urls. split.
  - intros u Hin. apply in_map_iff in Hin as (r & Hu & Hin).
    apply firstn_incl_In in Hin.
    apply (Permutation_in _ (order_by_id_desc_perm _)) in Hin.
    apply outlet_rows_In in Hin as [Hin Ho]. now exists r.
  - intros Hlen r Hin Ho.
    rewrite firstn_all2
      by now rewrite (Permutation_length (order_by_id_desc_perm _)).
    apply in_map.
    apply (Permutation_in _ (Permutation_sym (order_by_id_desc_perm _))).
    now apply outlet_rows_In.
Qed.

(** ** Reading a feed does not look at the state *)

Lemma state_blind_bind {A B} (m : M A) (k : A -> M B) :
  state_blind m -> (forall a, state_blind (k a)) -> state_blind (bind m k).
Proof.
  intros Hm Hk s s'. destruct (Hm s s') as [Hr He].
  unfold bind. rewrite <- Hr, <- He.
  destruct (res (m s)) as [a|e]; cbn [res evs]; [|now split].
  destruct (Hk a (st (m s)) (st (m s'))) as [Hr' He']. now rewrite Hr', He'.
Qed.

Lemma state_blind_ret {A} (a : A) : state_blind (ret a).
Proof. now intros s s'. Qed.

Lemma state_blind_log ev : state_blind (log ev).
Proof. now intros s s'. Qed.

Lemma state_blind_outcome {A} (r : result A) : state_blind (outcome r).
Proof. now intros s s'. Qed.

Lemma state_blind_canonicalize_url w o u : state_blind (canonicalize_url w o u).
Proof.
  intros s s'. destruct (str_in o ["ProPublica"; "Reuters"]) eqn:E.
  - now rewrite !(canonicalize_url_resolving _ _ _ _ E).
  - now rewrite !(canonicalize_url_direct _ _ _ _ E).
Qed.

Lemma state_blind_parse_entries w o entries :
  forall acc, state_blind (parse_entries w o entries acc).
Proof.
  induction entries as [|entry rest IH]; intros acc; cbn [parse_entries].
  - apply state_blind_ret.
  - apply state_blind_bind; [apply state_blind_outcome|]. intros t.
    apply state_blind_bind; [apply state_blind_outcome|]. intros u.
    apply state_blind_bind; [|intros a; apply IH].
    unfold Article_init. apply state_blind_bind; [apply state_blind_canonicalize_url|].
    intros c. apply state_blind_ret.
Qed.

Lemma state_blind_parse_feed w o u : state_blind (parse_feed w o u).
Proof.
  unfold parse_feed. apply state_blind_bind; [apply state_blind_log|]. intros _.
  apply state_blind_bind; [apply state_blind_outcome|]. intros entries.
  apply state_blind_parse_entries.
Qed.

Lemma parse_feed_fresh w o u s articles :
  res (parse_feed w o u s) = Returned articles -> Forall (fresh_of o) articles.
Proof.
  intros H. unfold parse_feed in H.
  rewrite (bind_returned (log _) _ s tt eq_refl) in H. cbn [log res st evs] in H.
  destruct (feedparser_parse w u) as [entries|e] eqn:Ef.
  2:{ rewrite (bind_raised (outcome (Raised e)) _ s e eq_refl) in H. discriminate. }
  rewrite (bind_returned (outcome (Returned entries)) _ s entries eq_refl) in H.
  cbn [res st evs outcome] in H.
  destruct (parse_entries_built w o s entries [] articles H) as (news & -> & Hall).
  simpl. clear H Ef. induction Hall as [|entry a es news Hb _ IH]; [constructor|].
  constructor; [|exact IH].
  destruct Hb as (_ & _ & Ho & Hm & Hi & Ht). now repeat split.
Qed.

Lemma Forall2_In_r {A B} (R : A -> B -> Prop) l1 l2 y :
  Forall2 R l1 l2 -> In y l2 -> exists x, In x l1 /\ R x y.
Proof.
  induction 1 as [|a b l1 l2 Hab _ IH]; intros Hin; [destruct Hin|].
  destruct Hin as [<-|Hin].
  - exists a. split; [now left|exact Hab].
  - destruct (IH Hin) as (x & Hx & HR). exists x. split; [now right|exact HR].
Qed.

(** ** Running a feed again *)

(** After a turn of the outer loop that returned on a fresh connection,
    and as long as the outlet then has at most a thousand rows, a second
    turn on the same feed with the same answers from the feed finds
    every article already recorded: none survives the filter, the turn
    returns, and it does nothing but read the feed again. *)
Theorem rerun_within_horizon (w : World) (feed : Feed) (s : St) :
  pending (conn s) = [] ->
  res (process_feed w feed s) = Returned tt ->
  let s1 := st (process_feed w feed s) in
  List.length (outlet_rows (feed_outlet feed) (visible (conn s1))) <= 1000 ->
  surviving w feed s1 = [] /\
  process_feed w feed s1
  = {| res := Returned tt; st := s1;
       evs := evs (parse_feed w (feed_outlet feed) (feed_url feed) s) |}.
Proof.
  intros Hpend Hret s1 Hlen.
  destruct (process_feed_rows w feed s Hpend) as (k & new & _ & Hc & Hp & Hall & Hk).
  specialize (Hk Hret). fold s1 in Hc, Hp. subst k. rewrite firstn_all in Hall.
  destruct (res (parse_feed w (feed_outlet feed) (feed_url feed) s))
    as [articles|e] eqn:Epf.
  2:{ rewrite process_feed_run in Hret. cbv zeta in Hret. rewrite Epf in Hret.
      discriminate. }
  destruct (state_blind_parse_feed w (feed_outlet feed) (feed_url feed) s1 s)
    as [Hres1 Hevs1].
  rewrite Epf in Hres1.
  assert (Hvis : visible (conn s1) = visible (conn s) ++ new).
  { unfold visible. now rewrite Hc, Hp, Hpend, !app_nil_r. }
  assert (Hseen : forall a, In a articles ->
            In (url a) (select_recent_urls (conn s1) (feed_outlet feed))).
  { intros a Ha.
    destruct (select_recent_urls_spec (conn s1) (feed_outlet feed)) as (Hsel & Hperm & _).
    assert (Hrows : forall r, In r (visible (conn s1)) -> row_outlet r = feed_outlet feed ->
                      In (row_url r) (select_recent_urls (conn s1) (feed_outlet feed))).
    { intros r Hin Ho. rewrite Hsel.
      rewrite firstn_all2 by now rewrite (Permutation_length Hperm).
      apply in_map. apply (Permutation_in _ (Permutation_sym Hperm)).
      now apply outlet_rows_In. }
    destruct (in_dec string_dec (url a) (select_recent_urls (conn s) (feed_outlet feed)))
      as [Hold|Hnew].
    - unfold select_recent_urls in Hold. apply in_map_iff in Hold as (r & Hu & Hin).
      apply firstn_incl_In in Hin.
      apply (Permutation_in _ (order_by_id_desc_perm _)) in Hin.
      apply outlet_rows_In in Hin as [Hin Ho]. rewrite <- Hu.
      apply Hrows; [|exact Ho]. rewrite Hvis. apply in_or_app. now left.
    - assert (Hkept : In a (surviving w feed s)).
      { unfold surviving. rewrite Epf. now apply not_recent_spec. }
      destruct (Forall2_In_r _ _ _ _ Hall Hkept) as (r & Hr & Hrec).
      destruct Hrec as (_ & Ho & Hu & _).
      pose proof (parse_feed_fresh _ _ _ _ _ Epf) as Hfresh.
      rewrite Forall_forall in Hfresh. destruct (Hfresh a Ha) as (Hoa & _).
      rewrite <- Hu. apply Hrows; [|congruence].
      rewrite Hvis. apply in_or_app. now right. }
  assert (Hnone : not_recent (select_recent_urls (conn s1) (feed_outlet feed)) articles = []).
  { unfold not_recent. apply filter_nil_iff. intros a Ha.
    apply negb_false_iff, str_in_spec, Hseen, Ha. }
  split.
  - unfold surviving. now rewrite Hres1.
  - rewrite process_feed_run. cbv zeta. rewrite Hres1, Hnone, Hevs1. cbn.
    now rewrite app_nil_r.
Qed.

Lemma rerun_within_horizon_witness :
  pending (conn Sample.start) = [] /\
  res (process_feed Sample.world Sample.feed Sample.start) = Returned tt /\
  surviving Sample.world Sample.feed
    (st (process_feed Sample.world Sample.feed Sample.start)) = [].
Proof.
  split; [reflexivity|]. split; [reflexivity|].
  refine (proj1 (rerun_within_horizon Sample.world Sample.feed Sample.start
                   eq_refl eq_refl _)).
  apply (proj1 (Nat.leb_le _ _)). vm_compute. reflexivity.
Defined.

(** ** Uploads do not decide anything *)

Lemma render_loop_with_upload w upload width grafs :
  forall self s,
    render_loop (with_upload w upload) width grafs self s
    = render_loop w width grafs self s.
Proof.
  induction grafs as [|g rest IH]; intros self s; [reflexivity|].
  cbn [render_loop]. unfold bind, render_img, log, outcome. cbn.
  destruct (pil_render w g width); [|reflexivity]. now rewrite IH.
Qed.

Lemma bind_ext {A B} (m m' : M A) (k k' : A -> M B) s :
  m s = m' s -> (forall a s', k a s' = k' a s') -> bind m k s = bind m' k' s.
Proof.
  intros Hm Hk. unfold bind. rewrite Hm.
  destruct (res (m' s)) as [a|e]; [|reflexivity]. now rewrite Hk.
Qed.

(** What [upload_media] answers, and whether it answers at all, changes
    nothing of what [tweet] does: with other answers to the uploads the
    result, the state and the whole log are the same, the posted status
    included. *)
Theorem tweet_ignores_upload_answers (w : World) (upload : Image -> result Z)
  (self : Article) (s : St) :
  tweet (with_upload w upload) self s = tweet w self s.
Proof.
  unfold tweet.
  apply bind_ext; [reflexivity|]. intros _ s1.
  apply bind_ext; [apply render_loop_with_upload|]. intros self1 s2.
  apply bind_ext; [reflexivity|]. intros twitter s3.
  apply bind_ext; [now rewrite !upload_loop_run|]. intros media_ids s4.
  reflexivity.
Qed.

(** ** A paragraph that cannot be rendered *)

Lemma render_loop_raises w width grafs :
  Exists (fun g => exists e, pil_render w g width = Raised e) grafs ->
  forall self s, exists e, res (render_loop w width grafs self s) = Raised e.
Proof.
  induction grafs as [|g rest IH]; intros Hex self s; [inversion Hex|].
  cbn [render_loop]. unfold render_img.
  unfold bind at 1. unfold bind at 1. unfold log, outcome. cbn [res st evs].
  destruct (pil_render w g width) as [img|e] eqn:E; cbn [res st evs].
  - apply IH. inversion Hex as [? ? (e & He)|]; subst; [congruence|assumption].
  - now exists e.
Qed.

(** When one of the paragraphs to render cannot be rendered, [tweet]
    raises before it uploads an image or posts the status. *)
Theorem failed_render_stops_tweet (w : World) (self : Article) (s : St) :
  Exists (fun g => exists e, pil_render w g (wrap_width self) = Raised e)
         (firstn 4 (matching_grafs self)) ->
  (exists e, res (tweet w self s) = Raised e) /\
  uploaded (evs (tweet w self s)) = [] /\
  posted (evs (tweet w self s)) = [].
Proof.
  intros Hex.
  destruct (render_loop_raises w _ _ Hex self s) as (e & He).
  destruct (render_loop_run w (wrap_width self) (firstn 4 (matching_grafs self)) self s)
    as (k & _ & Hev & _).
  unfold tweet.
  rewrite (bind_returned (log (EvTweet self)) _ s tt eq_refl). cbn [log res st evs].
  rewrite (bind_raised _ _ _ _ He). cbn [res st evs]. rewrite Hev.
  split; [now exists e|]. simpl.
  split; [apply uploaded_render_events|apply posted_render_events].
Qed.

Lemma failed_render_stops_tweet_witness :
  let w := {| CONFIG := Sample.config; rss_feeds := [];
              feedparser_parse := fun _ => Returned [];
              requests_head := fun u => Returned (Sample.page u);
              requests_get := fun u => Returned (Sample.page u);
              readable_plaintext := Sample.plaintext_of;
              pil_render := fun _ _ => Raised (ExternalError "OSError");
              twitter_upload_media := fun _ => Returned 1%Z;
              twitter_update_status := fun _ _ => Returned tt;
              utcnow := fun n => Z.of_nat n |} in
  let a := set_matching_grafs (Sample.article "t" "http://example.com/a") ["foia"] in
  (exists e, res (tweet w a Sample.start) = Raised e) /\
  uploaded (evs (tweet w a Sample.start)) = [] /\
  posted (evs (tweet w a Sample.start)) = [].
Proof.
  intros w a. apply (failed_render_stops_tweet w a Sample.start).
  simpl. constructor. now exists (ExternalError "OSError").
Defined.

(** ** An article that does not mention the lexicon *)

(** When the text of an article has no matching paragraph, its turn
    never calls [tweet]: nothing is rendered, uploaded or posted, and
    the one row the turn hands to the insert carries the article's
    title, outlet and URL with the [tweeted] flag as the article had
    it. *)
Theorem unmatched_article_is_recorded (w : World) (counter total : nat)
  (a : Article) (s : St) (text : string) :
  fetch_plaintext w a = Returned text ->
  find_matches (matching_grafs a) text = [] ->
  let l := evs (process_article w counter total a s) in
  (forall a', ~ In (EvTweet a') l) /\
  rendered l = [] /\ uploaded l = [] /\ posted l = [] /\
  exists r,
    In (EvInsert r) l /\
    (forall r', In (EvInsert r') l -> r' = r) /\
    row_title r = title a /\ row_outlet r = outlet a /\ row_url r = url a /\
    row_tweeted r = tweeted a.
Proof.
  intros Hfetch Hnone l. subst l. rewrite process_article_run. cbv zeta.
  rewrite check_for_matches_run. cbn [res st evs]. rewrite Hfetch, Hnone.
  cbn [res st evs tweet_if_matching matching_grafs set_matching_grafs ret app].
  split.
  { intros a' [H|[H|[H|[H|[H|[H|[]]]]]]]; discriminate. }
  repeat (split; [reflexivity|]).
  eexists. split; [right; right; right; left; reflexivity|].
  split; [|now repeat split].
  intros r' [H|[H|[H|[H|[H|[H|[]]]]]]]; try discriminate. now injection H.
Qed.

Lemma unmatched_article_is_recorded_witness :
  let a := Sample.article "Weather" "http://example.com/b" in
  let l := evs (process_article Sample.world 1 1 a Sample.start) in
  fetch_plaintext Sample.world a = Returned "Sunny." /\
  posted l = [] /\
  exists r, In (EvInsert r) l /\ row_url r = "http://example.com/b" /\
            row_tweeted r = false.
Proof.
  intros a l. split; [reflexivity|].
  destruct (unmatched_article_is_recorded Sample.world 1 1 a Sample.start "Sunny."
              eq_refl eq_refl)
    as (_ & _ & _ & Hposted & r & Hin & _ & _ & _ & Hurl & Htw).
  split; [exact Hposted|]. exists r. split; [exact Hin|]. split; [exact Hurl|exact Htw].
Defined.

(** ** Rows flagged as tweeted *)

Lemma flags_backed_app w l1 l2 :
  flags_backed w l1 -> flags_backed w l2 -> flags_backed w (l1 ++ l2).
Proof.
  intros H1 H2 r Hin Htw. apply in_app_or in Hin as [Hin|Hin].
  - destruct (H1 r Hin Htw) as [Hp Hok]. split; [apply in_or_app; now left|exact Hok].
  - destruct (H2 r Hin Htw) as [Hp Hok]. split; [apply in_or_app; now right|exact Hok].
Qed.

Lemma flags_backed_no_insert w l : Forall no_insert l -> flags_backed w l.
Proof.
  intros H r Hin. rewrite Forall_forall in H. exfalso. exact (H _ Hin r eq_refl).
Qed.

Lemma feed_event_no_insert l : Forall feed_event l -> Forall no_insert l.
Proof. apply Forall_impl. intros ev H r ->. exact H. Qed.

Lemma process_article_flags_backed w counter total a s :
  tweeted a = false ->
  flags_backed w (evs (process_article w counter total a s)).
Proof.
  intros Hfresh. rewrite process_article_run. cbv zeta.
  assert (Hhead : Forall no_insert (EvPrintChecking (outlet a) counter total
                                      :: evs (check_for_matches w a s))).
  { rewrite check_for_matches_run. cbn [evs].
    repeat constructor; intros r; discriminate. }
  destruct (res (check_for_matches w a s)) as [a1|e] eqn:E1; cbn [evs];
    [|now apply flags_backed_no_insert].
  destruct (check_for_matches_returned _ _ _ _ E1) as (Hsame & _ & Htw1 & _).
  pose proof (tweet_if_matching_no_insert w a1 s) as Hti.
  destruct (res (tweet_if_matching w a1 s)) as [a2|e] eqn:E2; cbn [evs].
  2:{ apply flags_backed_no_insert, Forall_app. now split. }
  destruct (tweet_if_matching_returned _ _ _ _ E2) as (Hsame2 & Htw2).
  intros r Hin Htw.
  assert (Hr : r = recorded_row w s a2).
  { apply in_app_or in Hin as [Hin|Hin].
    - rewrite Forall_forall in Hhead. exfalso. exact (Hhead _ Hin r eq_refl).
    - apply in_app_or in Hin as [Hin|Hin].
      + rewrite Forall_forall in Hti. exfalso. exact (Hti _ Hin r eq_refl).
      + destruct Hin as [Hin|[Hin|[Hin|[]]]]; try discriminate. now injection Hin. }
  subst r. cbn [row_tweeted recorded_row] in Htw.
  assert (Hstatus : row_status (recorded_row w s a2) = status_text a1).
  { symmetry. exact (same_article_status _ _ Hsame2). }
  rewrite Hstatus.
  unfold tweet_if_matching in E2.
  destruct (matching_grafs a1) as [|g grafs] eqn:Eg.
  { rewrite Htw2, Htw1, Hfresh in Htw. discriminate. }
  rewrite (bind_returned (log _) _ s tt eq_refl) in E2. cbn [log res st evs] in E2.
  destruct (tweet_run w a1 s) as [_ [(k & e & _ & Hres & _)|(new_imgs & _ & Hev & Hres)]];
    [congruence|].
  rewrite E2 in Hres. destruct Hres as (Hok & _).
  split; [|exact Hok].
  apply in_or_app. right. apply in_or_app. left.
  unfold tweet_if_matching. rewrite Eg.
  rewrite (bind_returned (log _) _ s tt eq_refl). cbn [log res st evs].
  right. rewrite Hev. right. apply in_or_app. right. apply in_or_app. right. now left.
Qed.

Lemma process_articles_flags_backed w articles :
  Forall (fun a => tweeted a = false) articles ->
  forall counter total s,
    flags_backed w (evs (process_articles w counter total articles s)).
Proof.
  induction 1 as [|a rest Ha _ IH]; intros counter total s; cbn [process_articles].
  - intros r [].
  - apply bind_evs_closed; [apply flags_backed_app| |].
    + now apply process_article_flags_backed.
    + intros _ _. apply IH.
Qed.

Lemma process_feed_flags_backed w feed s : flags_backed w (evs (process_feed w feed s)).
Proof.
  rewrite process_feed_run. cbv zeta.
  pose proof (parse_feed_feed_event w (feed_outlet feed) (feed_url feed) s) as Hpf.
  apply feed_event_no_insert, (flags_backed_no_insert w) in Hpf.
  destruct (res (parse_feed w (feed_outlet feed) (feed_url feed) s))
    as [articles|e] eqn:E; cbn [evs]; [|exact Hpf].
  apply flags_backed_app; [exact Hpf|].
  apply process_articles_flags_backed.
  pose proof (parse_feed_fresh _ _ _ _ _ E) as Hfresh.
  rewrite Forall_forall in *. intros a Ha.
  apply not_recent_spec in Ha as [Ha _]. now destruct (Hfresh a Ha) as (_ & _ & _ & Ht).
Qed.

Lemma process_feeds_flags_backed w feeds :
  forall s, flags_backed w (evs (process_feeds w feeds s)).
Proof.
  induction feeds as [|feed rest IH]; intros s; cbn [process_feeds].
  - intros r [].
  - apply bind_evs_closed; [apply flags_backed_app|apply process_feed_flags_backed|].
    intros _ _. apply IH.
Qed.

(** In a run, a row is written with [tweeted] set only for an article
    whose status line the run has posted, the client having accepted
    the post. *)
Theorem tweeted_rows_were_posted (w : World) (s : St) (r : Row) :
  In (EvInsert r) (evs (main w s)) ->
  row_tweeted r = true ->
  In (EvUpdateStatus (row_status r) []) (evs (main w s)) /\
  twitter_update_status w (row_status r) [] = Returned tt.
Proof.
  revert r. change (flags_backed w (evs (main w s))). unfold main.
  apply bind_evs_closed; [apply flags_backed_app|intros r []|]. intros db _.
  apply bind_evs_closed; [apply flags_backed_app| |].
  - rewrite get_twitter_instance_quiet. intros r [].
  - intros _ _. apply process_feeds_flags_backed.
Qed.

Lemma tweeted_rows_were_posted_witness :
  let r := {| row_id := 2; row_title := "City denies records request";
              row_outlet := "Example"; row_url := "http://example.com/a";
              row_tweeted := true; row_recorded_at := 1700000000 |} in
  In (EvInsert r) (evs (main Sample.world Sample.start)) /\
  In (EvUpdateStatus "Example: City denies records request http://example.com/a" [])
     (evs (main Sample.world Sample.start)).
Proof.
  intros r.
  assert (Hin : In (EvInsert r) (evs (main Sample.world Sample.start)))
    by (vm_compute; auto 20).
  split; [exact Hin|].
  exact (proj1 (tweeted_rows_were_posted Sample.world Sample.start r Hin eq_refl)).
Defined.

(** ** The feeds a run reads *)

Lemma feeds_read_none l :
  Forall (fun ev => forall u, ev <> EvParseFeed u) l -> feeds_read l = [].
Proof.
  induction 1 as [|ev l Hev _ IH]; [reflexivity|].
  unfold feeds_read in *. simpl. rewrite IH.
  destruct ev; try reflexivity. exfalso. exact (Hev _ eq_refl).
Qed.

Lemma feeds_read_app l1 l2 : feeds_read (l1 ++ l2) = feeds_read l1 ++ feeds_read l2.
Proof. apply flat_map_app. Qed.

Lemma parse_entries_heads_only w o entries :
  forall acc s,
    Forall (fun ev => forall u, ev <> EvParseFeed u)
           (evs (parse_entries w o entries acc s)).
Proof.
  induction entries as [|entry rest IH]; intros acc s; cbn [parse_entries]; [constructor|].
  apply bind_evs_Forall; [constructor|]. intros t _.
  apply bind_evs_Forall; [constructor|]. intros u _.
  apply bind_evs_Forall; [|intros a _; apply IH].
  rewrite Article_init_run. cbn [evs].
  destruct (str_in o ["ProPublica"; "Reuters"]) eqn:E.
  - rewrite (canonicalize_url_resolving _ _ _ _ E). repeat constructor. discriminate.
  - rewrite (canonicalize_url_direct _ _ _ _ E). constructor.
Qed.

Lemma parse_feed_feeds_read w o u s : feeds_read (evs (parse_feed w o u s)) = [u].
Proof.
  unfold parse_feed.
  rewrite (bind_returned (log _) _ s tt eq_refl). cbn [log res st evs].
  change (EvParseFeed u :: ?l) with ([EvParseFeed u] ++ l).
  rewrite feeds_read_app. simpl. f_equal.
  apply feeds_read_none. apply bind_evs_Forall; [constructor|].
  intros entries _. apply parse_entries_heads_only.
Qed.

Lemma process_feed_feeds_read w feed s :
  feeds_read (evs (process_feed w feed s)) = [feed_url feed].
Proof.
  rewrite process_feed_run. cbv zeta.
  pose proof (parse_feed_feeds_read w (feed_outlet feed) (feed_url feed) s) as Hpf.
  destruct (res (parse_feed w (feed_outlet feed) (feed_url feed) s)) as [articles|e];
    cbn [evs]; [|exact Hpf].
  rewrite feeds_read_app, Hpf.
  rewrite feeds_read_none; [reflexivity|].
  generalize (process_articles_event_of w
                (not_recent (select_recent_urls (conn s) (feed_outlet feed)) articles) 1
                (List.length (not_recent (select_recent_urls (conn s) (feed_outlet feed))
                                articles)) s).
  apply Forall_impl. intros ev (a & _ & Hev) u ->. exact Hev.
Qed.

Lemma process_feeds_feeds_read w feeds :
  forall s, exists k,
    feeds_read (evs (process_feeds w feeds s)) = map feed_url (firstn k feeds) /\
    (res (process_feeds w feeds s) = Returned tt -> k = List.length feeds).
Proof.
  induction feeds as [|feed rest IH]; intros s; cbn [process_feeds].
  - exists 0. now split.
  - destruct (res (process_feed w feed s)) as [[]|e] eqn:E.
    + rewrite (bind_returned _ _ _ _ E). cbn [res st evs].
      destruct (IH (st (process_feed w feed s))) as (k & Hk & Hret).
      exists (S k). rewrite feeds_read_app, process_feed_feeds_read, Hk.
      split; [reflexivity|]. intros H. simpl. f_equal. now apply Hret.
    + rewrite (bind_raised _ _ _ _ E). cbn [res st evs].
      exists 1. rewrite process_feed_feeds_read. split; [reflexivity|discriminate].
Qed.

(** A run reads the configured feeds in their order, each once, and
    stops reading at the first turn that raises: the feeds read are a
    prefix of the configured ones, and all of them when the run
    returns. *)
Theorem feeds_are_read_in_order (w : World) (s : St) :
  exists k,
    feeds_read (evs (main w s)) = map feed_url (firstn k (rss_feeds w)) /\
    (res (main w s) = Returned tt -> k = List.length (rss_feeds w)).
Proof.
  unfold main.
  destruct (getitem (CONFIG w) "db") as [db|e] eqn:Edb.
  2:{ exists 0. split; [reflexivity|discriminate]. }
  rewrite (bind_returned (outcome (Returned db)) _ s db eq_refl).
  cbn [res st evs outcome app].
  destruct (res (get_twitter_instance w s)) as [tw|e] eqn:Etw.
  - rewrite (bind_returned _ _ _ _ Etw), get_twitter_instance_quiet. cbn [res st evs app].
    apply process_feeds_feeds_read.
  - rewrite (bind_raised _ _ _ _ Etw), get_twitter_instance_quiet. cbn [res st evs].
    exists 0. split; [reflexivity|discriminate].
Qed.

(** ** The store only grows *)

Lemma store_events_app l1 l2 : store_events (l1 ++ l2) = store_events l1 ++ store_events l2.
Proof. apply filter_app. Qed.

Lemma recording_of_app r1 r2 : recording_of (r1 ++ r2) = recording_of r1 ++ recording_of r2.
Proof. apply flat_map_app. Qed.

Lemma store_events_none l :
  Forall (fun ev => is_store_event ev = false) l -> store_events l = [].
Proof.
  induction 1 as [|ev l Hev _ IH]; [reflexivity|].
  unfold store_events in *. simpl. now rewrite Hev.
Qed.

Lemma feed_event_not_store l :
  Forall feed_event l -> Forall (fun ev => is_store_event ev = false) l.
Proof. apply Forall_impl. intros ev. destruct ev; simpl; auto; contradiction. Qed.

Lemma tweet_if_matching_not_store w a s :
  Forall (fun ev => is_store_event ev = false) (evs (tweet_if_matching w a s)).
Proof.
  unfold tweet_if_matching. destruct (matching_grafs a); [constructor|].
  rewrite (bind_returned (log _) _ s tt eq_refl). cbn [log res st evs app].
  constructor; [reflexivity|].
  destruct (tweet_events w a s) as (rest & -> & Hrest).
  constructor; [reflexivity|]. revert Hrest. apply Forall_impl.
  intros ev [(g & width & ->)|[(img & ->)| ->]]; reflexivity.
Qed.

Lemma process_article_store w counter total a s :
  let o := process_article w counter total a s in
  exists rows,
    store_events (evs o) = recording_of rows /\
    visible (conn (st o)) = visible (conn s) ++ rows.
Proof.
  intros o. subst o. rewrite process_article_run. cbv zeta.
  assert (Hhead : store_events (EvPrintChecking (outlet a) counter total
                                  :: evs (check_for_matches w a s)) = []).
  { rewrite check_for_matches_run. reflexivity. }
  destruct (res (check_for_matches w a s)) as [a1|e]; cbn [st evs].
  - pose proof (store_events_none _ (tweet_if_matching_not_store w a1 s)) as Ht.
    destruct (res (tweet_if_matching w a1 s)) as [a2|e]; cbn [st evs].
    + exists [recorded_row w s a2].
      rewrite !store_events_app, Hhead, Ht. split; [reflexivity|].
      unfold after_record, visible. cbn. now rewrite app_nil_r.
    + exists []. split; [|now rewrite app_nil_r].
      now rewrite store_events_app, Hhead, Ht.
  - exists []. split; [exact Hhead|now rewrite app_nil_r].
Qed.

Lemma process_articles_store w articles :
  forall counter total s,
    let o := process_articles w counter total articles s in
    exists rows,
      store_events (evs o) = recording_of rows /\
      visible (conn (st o)) = visible (conn s) ++ rows.
Proof.
  induction articles as [|a rest IH]; intros counter total s o; subst o;
    cbn [process_articles].
  - exists []. cbn. now rewrite app_nil_r.
  - destruct (process_article_store w counter total a s) as (r1 & He1 & Hv1).
    destruct (res (process_article w counter total a s)) as [[]|e] eqn:E.
    + rewrite (bind_returned _ _ _ _ E). cbn [res st evs].
      destruct (IH (S counter) total (st (process_article w counter total a s)))
        as (r2 & He2 & Hv2).
      exists (r1 ++ r2). rewrite store_events_app, recording_of_app, He1, He2.
      split; [reflexivity|]. now rewrite Hv2, Hv1, app_assoc.
    + rewrite (bind_raised _ _ _ _ E). cbn [res st evs]. now exists r1.
Qed.

Lemma process_feed_store w feed s :
  let o := process_feed w feed s in
  exists rows,
    store_events (evs o) = recording_of rows /\
    visible (conn (st o)) = visible (conn s) ++ rows.
Proof.
  intros o. subst o. rewrite process_feed_run. cbv zeta.
  pose proof (store_events_none _ (feed_event_not_store _
                (parse_feed_feed_event w (feed_outlet feed) (feed_url feed) s))) as Hpf.
  destruct (res (parse_feed w (feed_outlet feed) (feed_url feed) s)) as [articles|e];
    cbn [st evs].
  - destruct (process_articles_store w
                (not_recent (select_recent_urls (conn s) (feed_outlet feed)) articles) 1
                (List.length (not_recent (select_recent_urls (conn s) (feed_outlet feed))
                                articles)) s) as (rows & He & Hv).
    exists rows. rewrite store_events_app, Hpf. now split.
  - exists []. split; [exact Hpf|now rewrite app_nil_r].
Qed.

Lemma process_feeds_store w feeds :
  forall s,
    let o := process_feeds w feeds s in
    exists rows,
      store_events (evs o) = recording_of rows /\
      visible (conn (st o)) = visible (conn s) ++ rows.
Proof.
  induction feeds as [|feed rest IH]; intros s o; subst o; cbn [process_feeds].
  - exists []. cbn. now rewrite app_nil_r.
  - destruct (process_feed_store w feed s) as (r1 & He1 & Hv1).
    destruct (res (process_feed w feed s)) as [[]|e] eqn:E.
    + rewrite (bind_returned _ _ _ _ E). cbn [res st evs].
      destruct (IH (st (process_feed w feed s))) as (r2 & He2 & Hv2).
      exists (r1 ++ r2). rewrite store_events_app, recording_of_app, He1, He2.
      split; [reflexivity|]. now rewrite Hv2, Hv1, app_assoc.
    + rewrite (bind_raised _ _ _ _ E). cbn [res st evs]. now exists r1.
Qed.

(** As long as the statements on the store themselves succeed, and
    whatever the feeds, the pages, the renderer and Twitter answer, the
    store only grows in a run: the rows the connection sees afterwards
    are the rows it saw before followed by the rows the run inserted,
    in order, and each insert of the log is followed at once by its
    commit and by the pause of one second. *)
Theorem store_only_grows (w : World) (s : St) :
  exists rows,
    store_events (evs (main w s)) = recording_of rows /\
    visible (conn (st (main w s))) = visible (conn s) ++ rows.
Proof.
  unfold main.
  destruct (getitem (CONFIG w) "db") as [db|e] eqn:Edb.
  2:{ exists []. cbn. now rewrite app_nil_r. }
  rewrite (bind_returned (outcome (Returned db)) _ s db eq_refl).
  cbn [res st evs outcome app].
  pose proof (pure_state_get_twitter_instance w s) as Hst.
  destruct (res (get_twitter_instance w s)) as [tw|e] eqn:Etw.
  - rewrite (bind_returned _ _ _ _ Etw), get_twitter_instance_quiet, Hst.
    cbn [res st evs app]. apply process_feeds_store.
  - rewrite (bind_raised _ _ _ _ Etw), get_twitter_instance_quiet, Hst.
    cbn [res st evs]. exists []. cbn. now rewrite app_nil_r.
Qed.

(** ** Entries of one feed with the same address *)

Lemma Forall2_filter_length {A B} (R : A -> B -> Prop) (f : A -> bool) (g : B -> bool)
  l1 l2 :
  Forall2 R l1 l2 -> (forall x y, R x y -> f x = g y) ->
  List.length (filter f l1) = List.length (filter g l2).
Proof.
  intros H Hfg. induction H as [|x y l1 l2 Hxy _ IH]; [reflexivity|].
  simpl. rewrite (Hfg x y Hxy). destruct (g y); simpl; now rewrite IH.
Qed.

Lemma filter_filter_implied {A} (f g : A -> bool) (l : list A) :
  (forall x, g x = true -> f x = true) -> filter g (filter f l) = filter g l.
Proof.
  intros H. induction l as [|x l IH]; [reflexivity|]. simpl.
  destruct (f x) eqn:Ef; simpl.
  - destruct (g x); now rewrite IH.
  - destruct (g x) eqn:Eg; [|exact IH]. rewrite (H x Eg) in Ef. discriminate.
Qed.

(** The filter looks at the store as it was before the turn: when a
    turn returns, a URL that was not recent gets as many new rows as the
    feed has entries with that canonical URL, so two entries of one
    feed with the same address are both processed and both recorded. *)
Theorem same_address_twice_in_a_feed (w : World) (feed : Feed) (s : St)
  (articles : list Article) (u : string) :
  pending (conn s) = [] ->
  res (parse_feed w (feed_outlet feed) (feed_url feed) s) = Returned articles ->
  res (process_feed w feed s) = Returned tt ->
  ~ In u (select_recent_urls (conn s) (feed_outlet feed)) ->
  exists new,
    committed (conn (st (process_feed w feed s))) = committed (conn s) ++ new /\
    List.length (filter (row_url_is u) new) = List.length (filter (url_is u) articles).
Proof.
  intros Hpend Hpf Hret Hnew.
  destruct (process_feed_rows w feed s Hpend) as (k & new & _ & Hc & _ & Hall & Hk).
  specialize (Hk Hret). subst k. rewrite firstn_all in Hall.
  exists new. split; [exact Hc|].
  rewrite (Forall2_filter_length (records w) (row_url_is u) (url_is u) _ _ Hall).
  - unfold surviving. rewrite Hpf. unfold not_recent. apply f_equal.
    apply filter_filter_implied. intros a Ha. apply String.eqb_eq in Ha.
    apply negb_true_iff. destruct (str_in (url a) _) eqn:E; [|reflexivity].
    apply str_in_spec in E. rewrite Ha in E. contradiction.
  - intros r a (_ & _ & Hu & _). unfold row_url_is, url_is. now rewrite Hu.
Qed.

Lemma same_address_twice_in_a_feed_witness :
  let w := Sample.world_with
             (Returned [ Sample.entry "Weather" "http://example.com/w?a=1";
                          Sample.entry "Weather again" "http://example.com/w?a=2" ])
             (fun u => Returned (Sample.page u)) (fun _ _ => Returned tt) in
  let u := "http://example.com/w" in
  ~ In u (select_recent_urls (conn Sample.start) "Example") /\
  exists new,
    committed (conn (st (process_feed w Sample.feed Sample.start)))
    = committed (conn Sample.start) ++ new /\
    List.length (filter (row_url_is u) new) = 2.
Proof.
  intros w u.
  assert (Hnew : ~ In u (select_recent_urls (conn Sample.start) "Example")).
  { simpl. intros [H|[]]. discriminate. }
  split; [exact Hnew|].
  destruct (same_address_twice_in_a_feed w Sample.feed Sample.start _ u
              eq_refl eq_refl eq_refl Hnew) as (new & Hc & Hlen).
  exists new. split; [exact Hc|exact Hlen].
Defined.

(** ** Rows that leave the window *)

Lemma StronglySorted_app_tail {A} (R : A -> A -> Prop) l1 x l2 :
  StronglySorted R (l1 ++ x :: l2) -> Forall (R x) l2.
Proof.
  induction l1 as [|y l1 IH]; simpl; intros H.
  - now inversion H.
  - inversion H; subst. now apply IH.
Qed.

Lemma newer_than_older r l :
  Forall (newer_first r) l -> newer_than r l = [].
Proof.
  induction 1 as [|x l Hx _ IH]; [reflexivity|].
  unfold newer_than in *. simpl. rewrite IH.
  unfold newer_first in Hx. destruct (Z.ltb_spec (row_id r) (row_id x)); [lia|reflexivity].
Qed.

Lemma newer_than_length_perm r l1 l2 :
  Permutation l1 l2 -> List.length (newer_than r l1) = List.length (newer_than r l2).
Proof.
  intros H. unfold newer_than. induction H; simpl.
  - reflexivity.
  - destruct (row_id r <? row_id x)%Z; simpl; now rewrite IHPermutation.
  - destruct (row_id r <? row_id x)%Z, (row_id r <? row_id y)%Z; reflexivity.
  - congruence.
Qed.

Lemma newer_than_app r l1 l2 :
  newer_than r (l1 ++ l2) = newer_than r l1 ++ newer_than r l2.
Proof. apply filter_app. Qed.

Lemma newer_than_self r l : newer_than r (r :: l) = newer_than r l.
Proof. unfold newer_than. simpl. now rewrite Z.ltb_irrefl. Qed.

(** A row of an outlet that has a thousand newer rows of the same
    outlet above it is outside the window: when no other row of the
    outlet holds its URL, the query no longer returns that URL, and an
    article with that URL passes the filter again. *)
Theorem old_rows_leave_the_window (c : Conn) (o : string) (r : Row) :
  In r (visible c) ->
  row_outlet r = o ->
  (forall r', In r' (visible c) -> row_outlet r' = o -> row_url r' = row_url r -> r' = r) ->
  1000 <= List.length (newer_than r (outlet_rows o (visible c))) ->
  ~ In (row_url r) (select_recent_urls c o) /\
  forall articles a,
    In a articles -> url a = row_url r ->
    In a (not_recent (select_recent_urls c o) articles).
Proof.
  intros Hin Ho Huniq Hnewer.
  assert (Hout : ~ In (row_url r) (select_recent_urls c o)).
  { intros Hrec. unfold select_recent_urls in Hrec.
    apply in_map_iff in Hrec as (r' & Hu & Hr').
    pose proof (order_by_id_desc_perm (outlet_rows o (visible c))) as Hperm.
    pose proof (order_by_id_desc_sorted (outlet_rows o (visible c))) as Hsorted.
    set (sorted := order_by_id_desc (outlet_rows o (visible c))) in *.
    assert (r' = r).
    { pose proof (firstn_incl_In _ _ _ Hr') as Hs.
      apply (Permutation_in _ Hperm), outlet_rows_In in Hs as [Hv Ho'].
      now apply Huniq. }
    subst r'.
    apply in_split in Hr' as (l1 & l2 & Hsplit).
    assert (Hl1 : List.length l1 < 1000).
    { assert (Hlen : List.length (firstn 1000 sorted) <= 1000)
        by (rewrite length_firstn; lia).
      rewrite Hsplit, length_app in Hlen. simpl in Hlen. lia. }
    assert (Hwhole : sorted = l1 ++ r :: (l2 ++ skipn 1000 sorted)).
    { rewrite <- (firstn_skipn 1000 sorted) at 1. rewrite Hsplit.
      now rewrite <- app_assoc. }
    rewrite Hwhole in Hsorted.
    pose proof (StronglySorted_app_tail _ _ _ _ Hsorted) as Htail.
    rewrite <- (newer_than_length_perm r _ _ Hperm), Hwhole in Hnewer.
    rewrite newer_than_app, newer_than_self in Hnewer.
    rewrite (newer_than_older _ _ Htail), app_nil_r in Hnewer.
    pose proof (filter_length_le (fun x => (row_id r <? row_id x)%Z) l1) as Hle.
    fold (newer_than r l1) in Hle. lia. }
  split; [exact Hout|].
  intros articles a Ha Hu. apply not_recent_spec. split; [exact Ha|]. now rewrite Hu.
Qed.

Lemma old_rows_leave_the_window_witness :
  let c := aged_store 1000 in
  List.length (visible c) = 1001 /\
  ~ In "http://example.com/old" (select_recent_urls c "Example").
Proof.
  intros c. split; [reflexivity|].
  refine (proj1 (old_rows_leave_the_window c "Example"
                   {| row_id := 1; row_title := "Old"; row_outlet := "Example";
                      row_url := "http://example.com/old"; row_tweeted := false;
                      row_recorded_at := 0 |} _ _ _ _)).
  - now left.
  - reflexivity.
  - intros r' [<-|Hr'] _ Hu; [reflexivity|].
    cbn [visible committed pending aged_store] in Hr'. rewrite app_nil_r in Hr'.
    apply in_map_iff in Hr' as (i & <- & _). discriminate.
  - apply (proj1 (Nat.leb_le _ _)). vm_compute. reflexivity.
Defined.
